(** * The observable value container ("atom") of [src/index.tsx] and its
      consumers: [createAtom], [useSyncExternalStoreShim] and [delayed].

    The program is embedded shallowly over an explicit store:

    - the closure variable [value] of every [createAtom] call lives in a heap
      of cells, and the [EventTarget] captured as [events] in a heap of
      listener lists;
    - [EventTarget] is a host object: [addEventListener],
      [removeEventListener] and [dispatchEvent] follow the DOM Standard
      (a listener is added only when no listener with the same callback is
      present; dispatch walks a clone of the list and skips listeners removed
      meanwhile; the callback receives the event object; exceptions thrown by a
      callback are reported, not propagated);
    - the hooks [useState] and [useEffect] are host primitives as well; they
      are modelled for one component instance that does not suspend and whose
      updates are rendered together (no transition priorities), with React's
      rule for when a new state is computed at once: only on a fiber on
      which no work is pending;
    - the listeners of the client are callbacks that read atoms, call [set],
      subscribe and unsubscribe callbacks, and throw; a listener may call
      [set] while a pass is running, so [set] is recursive, with the depth of
      nested calls bounded by a fuel argument;
    - what happens during a call of [set] is appended to a trace, so that
      "invoked exactly once", "observed the new value" and the like are
      statements about the trace. *)

From stdpp Require Import base option list gmap.
From Stdlib Require Import ZArith Lia.

Set Default Proof Using "Type*".

(** ** Values that have an identity *)

(** The object returned by [createAtom]: its three methods close over the
    variable [value] (a cell) and over [events] (an [EventTarget]). *)
Record Atom := MkAtom { atom_cell : nat; atom_events : nat }.

#[global] Instance Atom_eq_dec : EqDecision Atom.
Proof. solve_decision. Defined.

(** Function objects that are registered as listeners.  [CbUser n] is the
    [n]-th callback of the client program; [CbShim k g] is the arrow function
    [() => setSnapshot(getSnapshot)] allocated by the [k]-th run of the shim's
    effect, which captured [getSnapshot = g.get]. *)
Inductive callback :=
  | CbUser (n : nat)
  | CbShim (k : nat) (g : Atom).

#[global] Instance callback_eq_dec : EqDecision callback.
Proof. solve_decision. Defined.

(** An entry of an event listener list: the listener object (identified by the
    number it was allocated with) and its callback.  The type is always
    ["change"] and capture is always false in this program. *)
Abbreviation listener := (nat * callback)%type.

(** The function returned by [subscribe]:
    [() => events.removeEventListener("change", cb)]. *)
Record Unsubscribe := MkUnsub { unsub_target : nat; unsub_cb : callback }.

#[global] Instance Unsubscribe_eq_dec : EqDecision Unsubscribe.
Proof. solve_decision. Defined.

Section Program.

Context {T : Type} `{!EqDecision T}.

(** ** Client code *)

(** What a client callback may do with the atoms it can reach. *)
Inductive action :=
  | AGet (a : Atom)                     (* a.get(), the result is recorded *)
  | ASet (a : Atom) (v : T)             (* a.set(v) *)
  | ASubscribe (a : Atom) (n : nat)     (* a.subscribe(callback n) *)
  | AUnsubscribe (a : Atom) (n : nat)   (* the function a.subscribe(callback n) returned *)
  | AThrow.                             (* throw *)

Inductive event :=
  | Stored (c : nat) (v : T)
      (* a call of [set(v)] assigned [v] to the variable [c] *)
  | Invoked (t : nat) (l : nat) (cb : callback) (args : list nat)
      (* the listener [l] of target [t] was called with [args] *)
  | Got (a : Atom) (x : option T).
      (* a call of [a.get()] returned [x] *)

(** ** The component instance that uses the shim *)

(** A pending [setSnapshot(getSnapshot)]: the action is the function
    [g.get]; [upd_eager] is the state computed when the update was enqueued on
    a fiber without pending work. *)
Record update := MkUpdate { upd_eager : option T; upd_action : Atom }.

(** The element is one instance of a component whose state is the hook's.
    React keeps two fibers for it, the current one and, from the second
    evaluation on, its alternate; work scheduled on the element marks their
    lanes. *)
Record fiber := MkFiber {
  f_state : T;                          (* state of the useState hook *)
  f_queue : list update;                (* updates not rendered yet *)
  f_props : Atom * Atom;                (* (subscribe, getSnapshot) of the last render *)
  f_deps : option (Atom * Atom);        (* dependencies of the committed effect *)
  f_cleanup : option Unsubscribe;       (* what the committed effect returned *)
  f_renders : nat;                      (* how often the hook body ran *)
  f_lanes : bool;                       (* the lanes of the fiber are marked *)
  f_alternate : option bool             (* the alternate, if any: its lanes are marked *)
}.

(** There is an alternate fiber and its lanes are marked. *)
Definition alternate_lanes (f : fiber) : bool := default false (f_alternate f).

(** An update is queued and a render of the element scheduled: the lanes of
    the fiber are marked, and those of its alternate when there is one. *)
Definition schedule (u : update) (f : fiber) : fiber :=
  MkFiber (f_state f) (f_queue f ++ [u]) (f_props f) (f_deps f) (f_cleanup f)
          (f_renders f) true ((λ _, true) <$> f_alternate f).

Record world := MkWorld {
  cells : gmap nat T;
  targets : gmap nat (list listener);
  next_listener : nat;
  next_event : nat;
  next_closure : nat;
  trace : list event;
  the_fiber : option fiber
}.

Definition set_cells (f : gmap nat T → gmap nat T) (w : world) : world :=
  MkWorld (f (cells w)) (targets w) (next_listener w) (next_event w)
          (next_closure w) (trace w) (the_fiber w).

Definition set_targets (f : gmap nat (list listener) → gmap nat (list listener))
    (w : world) : world :=
  MkWorld (cells w) (f (targets w)) (next_listener w) (next_event w)
          (next_closure w) (trace w) (the_fiber w).

Definition bump_listener (w : world) : world :=
  MkWorld (cells w) (targets w) (S (next_listener w)) (next_event w)
          (next_closure w) (trace w) (the_fiber w).

Definition bump_event (w : world) : world :=
  MkWorld (cells w) (targets w) (next_listener w) (S (next_event w))
          (next_closure w) (trace w) (the_fiber w).

Definition bump_closure (w : world) : world :=
  MkWorld (cells w) (targets w) (next_listener w) (next_event w)
          (S (next_closure w)) (trace w) (the_fiber w).

Definition log (ev : event) (w : world) : world :=
  MkWorld (cells w) (targets w) (next_listener w) (next_event w)
          (next_closure w) (trace w ++ [ev]) (the_fiber w).

Definition set_fiber (f : option fiber) (w : world) : world :=
  MkWorld (cells w) (targets w) (next_listener w) (next_event w)
          (next_closure w) (trace w) f.

Definition empty_world : world := MkWorld ∅ ∅ 0 0 0 [] None.

(** ** EventTarget *)

Definition listeners_of (t : nat) (w : world) : list listener :=
  default [] (targets w !! t).

(** [events.addEventListener("change", cb)]: appended unless a listener with
    this callback is in the list already. *)
Definition addEventListener (t : nat) (cb : callback) (w : world) : world :=
  match targets w !! t with
  | None => w
  | Some ls =>
      if decide (cb ∈ ls.*2) then w
      else bump_listener
             (set_targets (λ m, <[t := ls ++ [(next_listener w, cb)]]> m) w)
  end.

(** [events.removeEventListener("change", cb)]. *)
Definition removeEventListener (t : nat) (cb : callback) (w : world) : world :=
  match targets w !! t with
  | None => w
  | Some ls => set_targets (λ m, <[t := filter (λ l, l.2 ≠ cb) ls]> m) w
  end.

(** ** The three methods of an atom *)

(** [get() { return value; }] *)
Definition atom_get (a : Atom) (w : world) : option T :=
  cells w !! atom_cell a.

(** [subscribe(cb)]: registers and returns the unsubscribe function. *)
Definition atom_subscribe (a : Atom) (cb : callback) (w : world)
    : Unsubscribe * world :=
  (MkUnsub (atom_events a) cb, addEventListener (atom_events a) cb w).

Definition call_unsubscribe (u : Unsubscribe) (w : world) : world :=
  removeEventListener (unsub_target u) (unsub_cb u) w.

(** ** useState's setter, called as [setSnapshot(getSnapshot)]

    React passes the previous state to the function it is given;
    [getSnapshot] ignores it and reads the atom.  Only when no work is
    pending on the element (its queue is empty, and neither the lanes of
    the fiber nor those of its alternate are marked) the new state is
    computed at once, by a call of [getSnapshot], and, when it is the state
    the hook already holds ([Object.is]), nothing is scheduled.  In every
    other case the function is queued, to be called when the element is
    evaluated, and a render is scheduled.  (A queued update has marked the
    lanes of the fiber; the lanes can be marked with an empty queue by an
    update of another state of the element, as [isPending] of
    [useTransition] while [startTransition] runs its function.) *)
Definition setSnapshot_getSnapshot (g : Atom) (w : world) : world :=
  match the_fiber w with
  | None => w
  | Some f =>
      match f_queue f with
      | [] =>
          if f_lanes f || alternate_lanes f
          then set_fiber (Some (schedule (MkUpdate None g) f)) w
          else
            let x := atom_get g w in
            let w1 := log (Got g x) w in
            match x with
            | None => w1
            | Some s =>
                if decide (s = f_state f) then w1
                else set_fiber (Some (schedule (MkUpdate (Some s) g) f)) w1
            end
      | _ => set_fiber (Some (schedule (MkUpdate None g) f)) w
      end
  end.

(** ** Running callbacks *)

(** The client program: the body of callback [n] is [prog !! n]. *)
Variable prog : list (list action).

Definition body (n : nat) : list action := default [] (prog !! n).

Section Dispatch.

(** [set] as callbacks see it: one level of call depth further down. *)
Variable set_rec : Atom → T → world → option world.

Fixpoint run_body (acts : list action) (w : world) : option world :=
  match acts with
  | [] => Some w
  | AGet a :: rest => run_body rest (log (Got a (atom_get a w)) w)
  | ASet a v :: rest => w' ← set_rec a v w; run_body rest w'
  | ASubscribe a n :: rest =>
      run_body rest (atom_subscribe a (CbUser n) w).2
  | AUnsubscribe a n :: rest =>
      run_body rest (call_unsubscribe (MkUnsub (atom_events a) (CbUser n)) w)
  | AThrow :: _ => Some w
  end.

Definition invoke_callback (cb : callback) (w : world) : option world :=
  match cb with
  | CbUser n => run_body (body n) w
  | CbShim _ g => Some (setSnapshot_getSnapshot g w)
  end.

(** The walk over the cloned listener list.  A listener whose [removed]
    flag was set since the clone was taken is no longer in the list of the
    target. *)
Fixpoint inner_invoke (t e : nat) (clone : list listener) (w : world)
    : option world :=
  match clone with
  | [] => Some w
  | l :: rest =>
      if decide (l ∈ listeners_of t w) then
        w' ← invoke_callback l.2 (log (Invoked t l.1 l.2 [e]) w);
        inner_invoke t e rest w'
      else inner_invoke t e rest w
  end.

(** [events.dispatchEvent(new Event("change"))] *)
Definition dispatchEvent (t : nat) (w : world) : option world :=
  let e := next_event w in
  let w1 := bump_event w in
  inner_invoke t e (listeners_of t w1) w1.

End Dispatch.

(** [set(newValue) { value = newValue; events.dispatchEvent(...) }].
    The fuel bounds the depth of nested [set] calls. *)
Fixpoint atom_set (fuel : nat) (a : Atom) (v : T) (w : world) : option world :=
  match fuel with
  | 0 => None
  | S n =>
      dispatchEvent (atom_set n) (atom_events a)
        (log (Stored (atom_cell a) v)
             (set_cells (λ m, <[atom_cell a := v]> m) w))
  end.

(** [createAtom(value, events = new EventTarget())] *)
Definition createAtom (v : T) (events : option nat) (w : world) : Atom * world :=
  let c := fresh (dom (cells w)) in
  let w1 := set_cells (λ m, <[c := v]> m) w in
  match events with
  | Some t => (MkAtom c t, w1)
  | None =>
      let t := fresh (dom (targets w)) in
      (MkAtom c t, set_targets (λ m, <[t := []]> m) w1)
  end.

(** ** The shim: [useSyncExternalStoreShim(subscribe, getSnapshot)]

    The arguments are the methods of atoms: [subscribe = s.subscribe] and
    [getSnapshot = g.get] (the program passes [atom.subscribe] and [atom.get]
    of one atom).  A function object is identified by the atom it belongs to. *)

(** A queued update applied to the state [st]: the value computed when it was
    enqueued, or else the action called now. *)
Definition apply_update (w : world) (st : T) (u : update) : T :=
  match upd_eager u with
  | Some x => x
  | None => default st (atom_get (upd_action u) w)
  end.

(** [let [snapshot, setSnapshot] = useState(getSnapshot)]: on the first
    evaluation the initializer [getSnapshot] is called; afterwards the state is
    the stored one with the queued updates applied. *)
Definition useState_getSnapshot (g : Atom) (w : world) : option T :=
  match the_fiber w with
  | None => atom_get g w
  | Some f => Some (foldl (apply_update w) (f_state f) (f_queue f))
  end.

(** The evaluation found nothing changed: the state is the one the hook
    held and the arguments are those of the last evaluation (the element was
    not handed new props).  React then clears the lanes of the fiber it
    rendered from and keeps the children as they are. *)
Definition bails_out (snapshot : T) (s g : Atom) (f : fiber) : bool :=
  bool_decide (snapshot = f_state f ∧ (s, g) = f_props f).

(** One evaluation of the hook body (the render phase): returns [snapshot]
    (line 137) and records the arguments, whose identities are the
    dependencies of the effect.  The fiber React worked on, with cleared
    lanes, becomes the current one; the one it rendered from becomes the
    alternate and keeps its lanes, unless the evaluation bailed out. *)
Definition useSyncExternalStoreShim (s g : Atom) (w : world)
    : option (T * world) :=
  snapshot ← useState_getSnapshot g w;
  let f' :=
    match the_fiber w with
    | None => MkFiber snapshot [] (s, g) None None 1 false None
    | Some f =>
        MkFiber snapshot [] (s, g) (f_deps f) (f_cleanup f) (S (f_renders f))
                false (Some (f_lanes f && negb (bails_out snapshot s g f)))
    end in
  Some (snapshot, set_fiber (Some f') w).

(** The commit phase of [useEffect(() => subscribe(cb), [subscribe,
    getSnapshot])]: when a dependency changed (or on mount) the previous
    cleanup runs, then the effect: it allocates the callback and subscribes. *)
Definition commit_effect (w : world) : world :=
  match the_fiber w with
  | None => w
  | Some f =>
      if decide (f_deps f = Some (f_props f)) then w
      else
        let w1 := match f_cleanup f with
                  | Some u => call_unsubscribe u w
                  | None => w
                  end in
        let cb := CbShim (next_closure w1) (f_props f).2 in
        let '(u, w2) := atom_subscribe (f_props f).1 cb (bump_closure w1) in
        set_fiber
          (Some (MkFiber (f_state f) (f_queue f) (f_props f)
                         (Some (f_props f)) (Some u) (f_renders f)
                         (f_lanes f) (f_alternate f))) w2
  end.

(** Teardown of the element: the cleanup of the effect runs. *)
Definition unmount (w : world) : world :=
  match the_fiber w with
  | None => w
  | Some f =>
      set_fiber None
        (match f_cleanup f with
         | Some u => call_unsubscribe u w
         | None => w
         end)
  end.

(** Work is scheduled on the fiber: its lanes are marked, as they are by
    every update that is queued. *)
Definition scheduled (f : fiber) : bool :=
  f_lanes f || bool_decide (f_queue f ≠ []).

(** A render of the element is scheduled. *)
Definition render_scheduled (w : world) : bool :=
  match the_fiber w with
  | Some f => scheduled f
  | None => false
  end.

(** React works off the scheduled render, with the arguments of the last one. *)
Definition flush (w : world) : world :=
  match the_fiber w with
  | Some f =>
      if render_scheduled w then
        match useSyncExternalStoreShim (f_props f).1 (f_props f).2 w with
        | Some (_, w') => commit_effect w'
        | None => w
        end
      else w
  | None => w
  end.

Definition renders (w : world) : nat :=
  match the_fiber w with Some f => f_renders f | None => 0 end.

(** The snapshot the host primitive of section 4.3 renders, in the spec's
    words: "call get to obtain the snapshot to render". *)
Definition native_snapshot_spec (g : Atom) (w : world) : option T :=
  atom_get g w.

(** ** Programs at top level *)

Inductive op :=
  | OCreate (v : T) (events : option nat)   (* createAtom(v) or createAtom(v, events) *)
  | OAct (act : action)                     (* a call made by the client *)
  | ORender (s g : Atom)                    (* the element renders with these arguments *)
  | OCommit                                 (* the render is committed *)
  | OUnmount.                               (* the element is torn down *)

Definition run_op (fuel : nat) (o : op) (w : world) : option world :=
  match o with
  | OCreate v events => Some (createAtom v events w).2
  | OAct act => run_body (atom_set fuel) [act] w
  | ORender s g => snd <$> useSyncExternalStoreShim s g w
  | OCommit => Some (commit_effect w)
  | OUnmount => Some (unmount w)
  end.

Fixpoint run (fuel : nat) (ops : list op) (w : world) : option world :=
  match ops with
  | [] => Some w
  | o :: rest => w' ← run_op fuel o w; run fuel rest w'
  end.

Definition reachable (w : world) : Prop :=
  ∃ fuel ops, run fuel ops empty_world = Some w.

(** [set(v1); ...; set(vn)] *)
Fixpoint set_all (fuel : nat) (a : Atom) (vs : list T) (w : world)
    : option world :=
  match vs with
  | [] => Some w
  | v :: rest => w' ← atom_set fuel a v w; set_all fuel a rest w'
  end.


(** ** What the client program can do *)

Definition act_sets (c : nat) (act : action) : bool :=
  match act with
  | ASet a _ => bool_decide (atom_cell a = c)
  | _ => false
  end.

(** Some callback calls [set] on an atom whose variable is the cell [c]. *)
Definition sets_cell (c : nat) : bool := existsb (existsb (act_sets c)) prog.

Definition act_unsubscribes (t n : nat) (act : action) : bool :=
  match act with
  | AUnsubscribe a m => bool_decide (atom_events a = t ∧ m = n)
  | _ => false
  end.

(** Some callback removes callback [n] from the target [t]. *)
Definition unsubscribes (t n : nat) : bool :=
  existsb (existsb (act_unsubscribes t n)) prog.

Definition is_set (act : action) : bool :=
  match act with ASet _ _ => true | _ => false end.

(** Some callback calls [set] at all. *)
Definition reentrant : bool := existsb (existsb is_set) prog.

Definition stays_subscribed (t : nat) (cb : callback) : Prop :=
  match cb with
  | CbUser n => unsubscribes t n = false
  | CbShim _ _ => True
  end.

(** ** Reading the trace *)

(** The value most recently assigned to the variable [c] by the calls of
    [set] in [tr]; [d] when there is none. *)
Definition last_stored (c : nat) (tr : list event) (d : option T) : option T :=
  foldl (λ acc ev,
           match ev with
           | Stored c' v => if decide (c' = c) then Some v else acc
           | _ => acc
           end) d tr.

(** Every [get] recorded in [tr] returned what the variable held then, when
    the variables held [d] at the start of [tr]. *)
Fixpoint coherent (d : nat → option T) (tr : list event) : Prop :=
  match tr with
  | [] => True
  | Stored c v :: rest =>
      coherent (λ c', if decide (c = c') then Some v else d c') rest
  | Got a x :: rest => x = d (atom_cell a) ∧ coherent d rest
  | Invoked _ _ _ _ :: rest => coherent d rest
  end.

Definition is_delivery (t e : nat) (cb : callback) (ev : event) : bool :=
  match ev with
  | Invoked t' _ cb' args => bool_decide (t' = t ∧ cb' = cb ∧ args = [e])
  | _ => false
  end.

(** How often the callback [cb] was called for the event object [e]
    dispatched at the target [t]. *)
Definition deliveries (t e : nat) (cb : callback) (tr : list event) : nat :=
  length (filter (λ ev, is_delivery t e cb ev) tr).



(** ** Invariants of reachable worlds *)

Record wf (w : world) : Prop := MkWf {
  wf_nodup : ∀ t ls, targets w !! t = Some ls → NoDup ls.*2;
  wf_ids : ∀ t l cb, (l, cb) ∈ listeners_of t w → l < next_listener w;
  wf_shim : ∀ t l k g, (l, CbShim k g) ∈ listeners_of t w →
      ∃ f, the_fiber w = Some f
           ∧ f_cleanup f = Some (MkUnsub t (CbShim k g))
           ∧ ∃ s, f_deps f = Some (s, g);
  wf_cleanup : ∀ f u, the_fiber w = Some f → f_cleanup f = Some u →
      ∃ k g, unsub_cb u = CbShim k g ∧ k < next_closure w
}.

(** The element is mounted on the atom [a] and its effect is committed. *)
Record subscribed (a : Atom) (w : world) : Prop := MkSubscribed {
  sub_value : is_Some (atom_get a w);
  sub_fiber : ∃ f k l, the_fiber w = Some f
      ∧ f_props f = (a, a) ∧ f_deps f = Some (a, a)
      ∧ f_cleanup f = Some (MkUnsub (atom_events a) (CbShim k a))
      ∧ (l, CbShim k a) ∈ listeners_of (atom_events a) w
}.

(** ** The primitive steps a call of [set] or of a callback is made of

    [W] holds of the cells that may be written, [U t n] of the callbacks that
    may be removed from a target, and [lo] is a lower bound of the event
    objects that are delivered. *)
Inductive prim (W : nat → Prop) (U : nat → nat → Prop) (lo : nat)
    : world → world → Prop :=
  | prim_store c v w :
      W c →
      prim W U lo w (log (Stored c v) (set_cells (λ m, <[c := v]> m) w))
  | prim_event w :
      prim W U lo w (bump_event w)
  | prim_invoke t l cb e w :
      (l, cb) ∈ listeners_of t w → lo ≤ e → e < next_event w →
      prim W U lo w (log (Invoked t l cb [e]) w)
  | prim_got a w :
      prim W U lo w (log (Got a (atom_get a w)) w)
  | prim_add t n w :
      prim W U lo w (addEventListener t (CbUser n) w)
  | prim_remove t n w :
      U t n → prim W U lo w (removeEventListener t (CbUser n) w)
  | prim_notify t l k g w :
      (l, CbShim k g) ∈ listeners_of t w →
      prim W U lo w (setSnapshot_getSnapshot g w).

Definition steps (W : nat → Prop) (U : nat → nat → Prop) (lo : nat)
    : world → world → Prop := rtc (prim W U lo).

(** What a sequence of primitive steps leaves in place. *)
Record ext (W : nat → Prop) (U : nat → nat → Prop) (lo : nat)
    (w w' : world) : Prop := MkExt {
  ext_next_event : next_event w ≤ next_event w';
  ext_next_listener : next_listener w ≤ next_listener w';
  ext_cells : ∀ c, ¬ W c → cells w' !! c = cells w !! c;
  ext_alloc : ∀ c, is_Some (cells w !! c) → is_Some (cells w' !! c);
  ext_targets : ∀ t, is_Some (targets w !! t) → is_Some (targets w' !! t);
  ext_keep : ∀ t l cb, (l, cb) ∈ listeners_of t w →
      (∀ n, cb = CbUser n → ¬ U t n) → (l, cb) ∈ listeners_of t w';
  ext_new : ∀ t l cb, (l, cb) ∈ listeners_of t w' →
      (l, cb) ∈ listeners_of t w ∨ (next_listener w ≤ l ∧ ∃ n, cb = CbUser n);
  ext_fiber :
      match the_fiber w with
      | None => the_fiber w' = None
      | Some f => ∃ f', the_fiber w' = Some f'
          ∧ f_state f' = f_state f ∧ f_props f' = f_props f
          ∧ f_deps f' = f_deps f ∧ f_cleanup f' = f_cleanup f
          ∧ f_renders f' = f_renders f
      end;
  ext_trace : ∃ seg, trace w' = trace w ++ seg
      ∧ (∀ t l cb args, Invoked t l cb args ∈ seg → ∃ e, args = [e] ∧ lo ≤ e)
      ∧ (∀ a x, Got a x ∈ seg → ¬ W (atom_cell a) → x = cells w !! atom_cell a)
      ∧ (∀ c v, Stored c v ∈ seg → W c)
      ∧ coherent (λ c, cells w !! c) seg
      ∧ (∀ c, cells w' !! c = last_stored c seg (cells w !! c))
}.

(** The world in which the notification pass of [set(v)] starts: the value is
    stored and the event object allocated. *)
Definition committed (a : Atom) (v : T) (w : world) : world :=
  bump_event (log (Stored (atom_cell a) v)
                  (set_cells (λ m, <[atom_cell a := v]> m) w)).

(** The fiber after [setSnapshot(getSnapshot)] found [x] in the atom [g]. *)
Definition enqueue (g : Atom) (x : T) (f : fiber) : fiber :=
  match f_queue f with
  | [] =>
      if f_lanes f || alternate_lanes f then schedule (MkUpdate None g) f
      else if decide (x = f_state f) then f
      else schedule (MkUpdate (Some x) g) f
  | _ => schedule (MkUpdate None g) f
  end.

(** The fiber of the mounted element satisfies [I]. *)
Definition holds (I : fiber → Prop) (w : world) : Prop :=
  ∃ f, the_fiber w = Some f ∧ I f.

(** The element is mounted with [getSnapshot = a.get], and the atom holds [v]. *)
Definition stable (a : Atom) (v : T) (w : world) : Prop :=
  wf w ∧ atom_get a w = Some v
  ∧ ∃ f s, the_fiber w = Some f ∧ f_deps f = Some (s, a).

(** The next render returns [v]: the last queued update yields [v] (it was
    computed as [v], or it will call [a.get]), or nothing is queued and the
    state is [v]. *)
Definition renders_to (a : Atom) (v : T) (f : fiber) : Prop :=
  match last (f_queue f) with
  | None => f_state f = v
  | Some u =>
      match upd_eager u with
      | Some y => y = v
      | None => upd_action u = a
      end
  end.

(** What the bodies of the client program may contain. *)
Definition allowed (act : action) : Prop :=
  match act with
  | ASet a _ => sets_cell (atom_cell a) = true
  | AUnsubscribe a m => unsubscribes (atom_events a) m = true
  | _ => True
  end.

End Program.

Arguments action : clear implicits.
Arguments event : clear implicits.
Arguments update : clear implicits.
Arguments fiber : clear implicits.
Arguments world : clear implicits.
Arguments op : clear implicits.

(** ** [delayed]: promises and timers

    The host's clock, promises and timer list.  Time is counted in
    milliseconds.  The values passed around are plain values (numbers in this
    program), not thenables. *)

Section Timers.

Context {T : Type}.

Inductive promise_state :=
  | Pending
  | Fulfilled (v : T)
  | Rejected.

(** A timer set by [setTimeout(resolve, ms, value)], where [resolve] is the
    resolving function of the promise [tm_promise]. *)
Record timer := MkTimer { tm_due : Z; tm_promise : nat; tm_arg : T }.

Record loop := MkLoop {
  now : Z;
  promises : list promise_state;
  timers : list timer;
  resolve_calls : list (nat * T)     (* the calls of resolving functions so far *)
}.

Definition empty_loop : loop := MkLoop 0 [] [] [].

(** Calling the resolving function of promise [p] with [v]: only a pending
    promise changes. *)
Definition resolve (l : loop) (p : nat) (v : T) : loop :=
  MkLoop (now l)
         (match promises l !! p with
          | Some Pending => <[p := Fulfilled v]> (promises l)
          | _ => promises l
          end)
         (timers l) (resolve_calls l ++ [(p, v)]).

(** [setTimeout(resolve, ms, v)] *)
Definition setTimeout (p : nat) (ms : Z) (v : T) (l : loop) : loop :=
  MkLoop (now l) (promises l)
         (timers l ++ [MkTimer (now l + Z.max 0 ms) p v]) (resolve_calls l).

(** [new Promise((resolve) => ...)]: a new pending promise, handed to the
    executor, which runs at once. *)
Definition new_promise (executor : nat → loop → loop) (l : loop) : nat * loop :=
  let p := length (promises l) in
  (p, executor p (MkLoop (now l) (promises l ++ [Pending]) (timers l)
                         (resolve_calls l))).

(** [function delayed<T>(value: T) {
       return new Promise<T>((resolve) => setTimeout(resolve, 1000, value)); }] *)
Definition delayed (value : T) (l : loop) : nat * loop :=
  new_promise (λ resolve_p, setTimeout resolve_p 1000 value) l.

(** The producer as section 4.2 of the spec words it:
    [produce(value, delayMs = 1000)]. *)
Definition produce_spec (value : T) (delayMs : option Z) (l : loop) : nat * loop :=
  new_promise (λ resolve_p, setTimeout resolve_p (default 1000%Z delayMs) value) l.

(** [d] milliseconds pass; the timers that are due run and are dropped. *)
Definition elapse (l : loop) (d : Z) : loop :=
  let t := (now l + Z.max 0 d)%Z in
  foldl (λ l' tm, resolve l' (tm_promise tm) (tm_arg tm))
        (MkLoop t (promises l) (filter (λ tm, (t < tm_due tm)%Z) (timers l))
                (resolve_calls l))
        (filter (λ tm, (tm_due tm ≤ t)%Z) (timers l)).

Definition elapse_all (l : loop) (ds : list Z) : loop := foldl elapse l ds.

Definition elapsed (ds : list Z) : Z := foldr (λ d acc, (Z.max 0 d + acc)%Z) 0%Z ds.

Definition promise_of (p : nat) (l : loop) : option promise_state :=
  promises l !! p.

(** How often the resolving function of [p] was called. *)
Definition resolutions (p : nat) (l : loop) : nat :=
  length (filter (λ c, c.1 = p) (resolve_calls l)).

(** Timers and recorded calls are about promises that exist. *)
Definition timers_wf (l : loop) : Prop :=
  Forall (λ tm, tm_promise tm < length (promises l)) (timers l)
  ∧ Forall (λ c, c.1 < length (promises l)) (resolve_calls l).

(** The promise [p] is pending and [tm] is the one timer that resolves it. *)
Definition awaiting (p : nat) (tm : timer) (l : loop) : Prop :=
  promise_of p l = Some Pending
  ∧ filter (λ tm', tm_promise tm' = p) (timers l) = [tm]
  ∧ resolutions p l = 0
  ∧ (now l < tm_due tm)%Z.

(** The promise [p] was resolved with [v], by the one call there was. *)
Definition settled (p : nat) (v : T) (l : loop) : Prop :=
  promise_of p l = Some (Fulfilled v)
  ∧ filter (λ tm', tm_promise tm' = p) (timers l) = []
  ∧ resolutions p l = 1.

End Timers.

Arguments promise_state : clear implicits.
Arguments timer : clear implicits.
Arguments loop : clear implicits.

(** ** The order of a notification pass *)

Section Order.

Context {T : Type} `{!EqDecision T}.





End Order.

(** * Concrete programs and worlds *)

(** The atom of the examples: the first one a world creates. *)
Definition a0 : Atom := MkAtom 0 0.

(** Callback 0 reads the atom; callback 1 subscribes callback 2 and throws;
    callback 2 reads the atom. *)
Definition prog_obs : list (list (action nat)) :=
  [ [AGet a0]; [ASubscribe a0 2; AThrow; AGet a0]; [AGet a0] ].

(** [createAtom(5)], then callbacks 0 and 1 subscribe. *)
Definition ops_obs : list (op nat) :=
  [ OCreate 5 None; OAct (ASubscribe a0 0); OAct (ASubscribe a0 1) ].

Definition w_obs : world nat :=
  default empty_world (run prog_obs 1 ops_obs empty_world).

Definition w_obs_set : world nat :=
  default empty_world (atom_set prog_obs 1 a0 7 w_obs).




(** The element mounted on the atom, its effect committed. *)
Definition ops_shim : list (op nat) :=
  [ OCreate 5 None; ORender a0 a0; OCommit ].

Definition w_shim : world nat :=
  default empty_world (run prog_obs 1 ops_shim empty_world).

Definition w_shim_same : world nat :=
  default empty_world (atom_set prog_obs 1 a0 5 w_shim).

Definition w_shim_new : world nat :=
  default empty_world (atom_set prog_obs 1 a0 6 w_shim).

(** The update to 6 was rendered; then [set(6)] again, the evaluation this
    schedules, and [set(6)] a third time. *)
Definition w_shim_again : world nat :=
  default empty_world (atom_set prog_obs 1 a0 6 (flush w_shim_new)).

Definition w_shim_third : world nat :=
  default empty_world (atom_set prog_obs 1 a0 6 (flush w_shim_again)).

Definition w_unsub : world nat :=
  call_unsubscribe (atom_subscribe a0 (CbUser 0) w_obs).1
                   (atom_subscribe a0 (CbUser 0) w_obs).2.

Definition w_unsub_set : world nat :=
  default empty_world (atom_set prog_obs 1 a0 7 w_unsub).

(** Callback 0 unsubscribes itself and calls [set(9)]; callback 1 reads. *)
Definition prog_re : list (list (action nat)) :=
  [ [AUnsubscribe a0 0; ASet a0 9]; [AGet a0] ].

Definition w_re : world nat :=
  default empty_world (run prog_re 1 ops_obs empty_world).

Definition w_re_set : world nat :=
  default empty_world (atom_set prog_re 2 a0 7 w_re).

(** Only the atom exists. *)
Definition w_atom : world nat :=
  default empty_world (run prog_obs 1 [OCreate 5 None] empty_world).

Definition f_shim : fiber nat :=
  MkFiber 5 [] (a0, a0) (Some (a0, a0)) (Some (MkUnsub 0 (CbShim 0 a0))) 1
          false None.

(** The fiber after the update to 6 was rendered, and after the evaluation
    that found 6 again. *)
Definition f_shim_rendered : fiber nat :=
  MkFiber 6 [] (a0, a0) (Some (a0, a0)) (Some (MkUnsub 0 (CbShim 0 a0))) 2
          false (Some true).

Definition f_shim_settled : fiber nat :=
  MkFiber 6 [] (a0, a0) (Some (a0, a0)) (Some (MkUnsub 0 (CbShim 0 a0))) 3
          false (Some false).

(** Two atoms on one [EventTarget]: [createAtom(5)], then
    [createAtom(6, events)] with the target of the first. *)
Definition a1 : Atom := MkAtom 1 0.

Definition w_shared : world nat :=
  default empty_world
    (run prog_obs 1 [OCreate 5 None; OCreate 6 (Some 0)] empty_world).

Definition w_shared_set : world nat :=
  default empty_world
    (atom_set prog_obs 1 a1 7 (atom_subscribe a0 (CbUser 0) w_shared).2).

(** The element evaluated on the atom, its effect not yet committed. *)
Definition w_rendered : world nat :=
  default empty_world
    (run prog_obs 1 [OCreate 5 None; ORender a0 a0] empty_world).

Definition w_rendered_set : world nat :=
  default empty_world (atom_set prog_obs 1 a0 6 w_rendered).

(** The element torn down, then [set(6)]. *)
Definition w_unmounted_set : world nat :=
  default empty_world (atom_set prog_obs 1 a0 6 (unmount w_shim)).

(** The callback 0 subscribed twice to the atom, a call of [set(7)], the
    callback unsubscribed once, and [set(7)] again. *)
Definition w_dup : world nat :=
  (atom_subscribe a0 (CbUser 0) (atom_subscribe a0 (CbUser 0) w_atom).2).2.

Definition w_dup_set : world nat :=
  default empty_world (atom_set prog_obs 1 a0 7 w_dup).

Definition w_dup_removed : world nat :=
  call_unsubscribe
    (atom_subscribe a0 (CbUser 0) (atom_subscribe a0 (CbUser 0) w_atom).2).1
    w_dup.

Definition w_dup_removed_set : world nat :=
  default empty_world (atom_set prog_obs 1 a0 7 w_dup_removed).

(** The fiber after the first evaluation, before the commit. *)
Definition f_rendered : fiber nat :=
  MkFiber 5 [] (a0, a0) None None 1 false None.

(** Two atoms with a target each; the element is mounted on the first. *)
Definition b1 : Atom := MkAtom 1 1.

Definition ops_two : list (op nat) :=
  [ OCreate 5 None; OCreate 6 None; ORender a0 a0; OCommit ].

Definition w_two : world nat :=
  default empty_world (run prog_obs 1 ops_two empty_world).

(** The element evaluated with the second atom, the effect not yet
    committed again. *)
Definition w_two_rendered : world nat :=
  default empty_world (run prog_obs 1 (ops_two ++ [ORender b1 b1]) empty_world).

Definition f_two_rendered : fiber nat :=
  MkFiber 5 [] (b1, b1) (Some (a0, a0)) (Some (MkUnsub 0 (CbShim 0 a0))) 2
          false (Some false).


(** * Facts *)

Section Facts.

Context {T : Type} `{!EqDecision T}.
Variable prog : list (list (action T)).

Local Abbreviation world := (world T).
Local Abbreviation Wp := (λ c : nat, sets_cell prog c = true).
Local Abbreviation Up := (λ t n : nat, unsubscribes prog t n = true).

Implicit Types (w : world) (a g s : Atom) (cb : callback) (t e l n k : nat).

(** ** What the bodies of the client program contain *)

Lemma body_elem n act :
  act ∈ body prog n → ∃ acts, In acts prog ∧ In act acts.
Proof.
  unfold body. destruct (prog !! n) as [acts|] eqn:E; simpl.
  - intros H. exists acts. split.
    + apply list_elem_of_In. eapply list_elem_of_lookup_2. exact E.
    + by apply list_elem_of_In.
  - intros H. by apply not_elem_of_nil in H.
Qed.

Lemma body_allowed n act : act ∈ body prog n → allowed prog act.
Proof.
  intros (acts & Hin & Hact)%body_elem.
  destruct act as [a|a v|a m|a m|]; simpl; try done.
  - apply existsb_exists. exists acts. split; [done|].
    apply existsb_exists. exists (ASet a v). split; [done|].
    simpl. by apply bool_decide_eq_true.
  - apply existsb_exists. exists acts. split; [done|].
    apply existsb_exists. exists (AUnsubscribe a m). split; [done|].
    simpl. by apply bool_decide_eq_true.
Qed.

Lemma body_not_reentrant n act :
  reentrant prog = false → act ∈ body prog n → is_set act = false.
Proof.
  intros Hre (acts & Hin & Hact)%body_elem.
  destruct (is_set act) eqn:E; [|done].
  assert (reentrant prog = true) as Hc; [|congruence].
  apply existsb_exists. exists acts. split; [done|].
  apply existsb_exists. by exists act.
Qed.

(** ** Projections of the primitive updates *)

Lemma listeners_of_log ev t w : listeners_of t (log ev w) = listeners_of t w.
Proof. done. Qed.

Lemma listeners_of_set_cells f t w :
  listeners_of t (set_cells f w) = listeners_of t w.
Proof. done. Qed.

Lemma listeners_of_bump_event t w :
  listeners_of t (bump_event w) = listeners_of t w.
Proof. done. Qed.

Lemma listeners_of_set_fiber f t w :
  listeners_of t (set_fiber f w) = listeners_of t w.
Proof. done. Qed.

Lemma targets_notify g w :
  targets (setSnapshot_getSnapshot g w) = targets w.
Proof.
  unfold setSnapshot_getSnapshot.
  destruct (the_fiber w) as [f|]; [|done].
  destruct (f_queue f); [|done].
  destruct (f_lanes f || alternate_lanes f); [done|].
  destruct (atom_get g w); simpl; [|done].
  by case_decide.
Qed.

Lemma listeners_of_notify g t w :
  listeners_of t (setSnapshot_getSnapshot g w) = listeners_of t w.
Proof. unfold listeners_of. by rewrite targets_notify. Qed.

Lemma next_event_notify g w :
  next_event (setSnapshot_getSnapshot g w) = next_event w.
Proof.
  unfold setSnapshot_getSnapshot.
  destruct (the_fiber w) as [f|]; [|done].
  destruct (f_queue f); [|done].
  destruct (f_lanes f || alternate_lanes f); [done|].
  destruct (atom_get g w); simpl; [|done].
  by case_decide.
Qed.

Lemma next_event_add t cb w :
  next_event (addEventListener t cb w) = next_event w.
Proof.
  unfold addEventListener. destruct (targets w !! t); [|done].
  by case_decide.
Qed.

Lemma next_event_remove t cb w :
  next_event (removeEventListener t cb w) = next_event w.
Proof. unfold removeEventListener. by destruct (targets w !! t). Qed.

(** ** Sequences of primitive steps *)

Lemma prim_mono (W W' : nat → Prop) (U U' : nat → nat → Prop) lo lo' w w' :
  (∀ c, W c → W' c) → (∀ t n, U t n → U' t n) → lo' ≤ lo →
  prim W U lo w w' → prim W' U' lo' w w'.
Proof.
  intros HW HU Hlo H. destruct H.
  - apply prim_store; auto.
  - apply prim_event.
  - apply prim_invoke; [done|lia|done].
  - apply prim_got.
  - apply prim_add.
  - apply prim_remove; auto.
  - eapply prim_notify; eauto.
Qed.

Lemma steps_mono (W W' : nat → Prop) (U U' : nat → nat → Prop) lo lo' w w' :
  (∀ c, W c → W' c) → (∀ t n, U t n → U' t n) → lo' ≤ lo →
  steps W U lo w w' → steps W' U' lo' w w'.
Proof.
  intros HW HU Hlo H. induction H as [|w1 w2 w3 H12 _ IH]; [apply rtc_refl|].
  eapply rtc_l; [|exact IH]. eapply prim_mono; eauto.
Qed.

Lemma prim_next_event W U lo w w' :
  prim W U lo w w' → next_event w ≤ next_event w'.
Proof.
  destruct 1; simpl; try lia.
  - by rewrite next_event_add.
  - by rewrite next_event_remove.
  - by rewrite next_event_notify.
Qed.

Lemma steps_next_event W U lo w w' :
  steps W U lo w w' → next_event w ≤ next_event w'.
Proof.
  induction 1 as [|w1 w2 w3 H12 _ IH]; [done|].
  apply prim_next_event in H12. lia.
Qed.

(** ** A call of [set] is a sequence of primitive steps *)

Section DispatchSteps.

Variable set_rec : Atom → T → world → option world.

Hypothesis set_rec_steps : ∀ a v w w' lo,
  lo ≤ next_event w → sets_cell prog (atom_cell a) = true →
  set_rec a v w = Some w' → steps Wp Up lo w w'.

Lemma run_body_steps acts w w' lo :
  (∀ act, act ∈ acts → allowed prog act) → lo ≤ next_event w →
  run_body set_rec acts w = Some w' → steps Wp Up lo w w'.
Proof.
  revert w. induction acts as [|act rest IH]; intros w Hall Hlo Hrun.
  { simpl in Hrun. injection Hrun as <-. apply rtc_refl. }
  assert (∀ act', act' ∈ rest → allowed prog act') as Hrest.
  { intros act' Hin. apply Hall. by right. }
  assert (allowed prog act) as Hact by (apply Hall; left).
  destruct act as [a|a v|a m|a m|]; simpl in Hrun.
  - eapply rtc_l; [apply prim_got|]. by apply IH.
  - destruct (set_rec a v w) as [w1|] eqn:E; [|done]. simpl in Hrun.
    pose proof (set_rec_steps _ _ _ _ lo Hlo Hact E) as H1.
    etrans; [exact H1|]. apply IH; [done| |done].
    apply steps_next_event in H1. lia.
  - eapply rtc_l; [apply prim_add|].
    apply IH; [done| |done]. by rewrite next_event_add.
  - eapply rtc_l; [by apply prim_remove|].
    apply IH; [done| |done]. unfold call_unsubscribe; simpl.
    by rewrite next_event_remove.
  - injection Hrun as <-. apply rtc_refl.
Qed.

Lemma invoke_callback_steps t l cb w w' lo :
  (l, cb) ∈ listeners_of t w → lo ≤ next_event w →
  invoke_callback prog set_rec cb w = Some w' → steps Wp Up lo w w'.
Proof.
  intros Hin Hlo Hrun. destruct cb as [n|k g]; simpl in Hrun.
  - eapply run_body_steps; [|done..]. intros act. apply body_allowed.
  - injection Hrun as <-. apply rtc_once. by eapply prim_notify.
Qed.

Lemma inner_invoke_steps t e clone w w' lo :
  lo ≤ e → e < next_event w →
  inner_invoke prog set_rec t e clone w = Some w' → steps Wp Up lo w w'.
Proof.
  revert w. induction clone as [|[l cb] rest IH]; intros w Hlo He Hrun.
  { simpl in Hrun. injection Hrun as <-. apply rtc_refl. }
  simpl in Hrun. case_decide as Hin; [|by apply IH].
  destruct (invoke_callback prog set_rec cb (log (Invoked t l cb [e]) w))
    as [w1|] eqn:E; [|done].
  simpl in Hrun.
  eapply rtc_l; [by apply (prim_invoke _ _ _ t l cb e)|].
  assert (steps Wp Up lo (log (Invoked t l cb [e]) w) w1) as H1.
  { eapply invoke_callback_steps; [|simpl; lia|done].
    by rewrite listeners_of_log. }
  etrans; [exact H1|]. apply IH; [done| |done].
  apply steps_next_event in H1. simpl in H1. lia.
Qed.

End DispatchSteps.

Lemma atom_set_unfold fuel a v w :
  atom_set prog (S fuel) a v w
  = inner_invoke prog (atom_set prog fuel) (atom_events a) (next_event w)
      (listeners_of (atom_events a) w) (committed a v w).
Proof. done. Qed.

Lemma atom_set_pass_steps fuel a v w w' lo :
  lo ≤ next_event w → atom_set prog fuel a v w = Some w' →
  steps Wp Up lo (committed a v w) w'.
Proof.
  revert a v w w' lo. induction fuel as [|fuel IH]; intros a v w w' lo Hlo Hrun.
  { done. }
  rewrite atom_set_unfold in Hrun.
  eapply inner_invoke_steps; [|exact Hlo| |exact Hrun].
  - clear -IH. intros a' v' w1 w1' lo' Hlo' HW Hrun'.
    eapply rtc_l; [by apply (prim_store _ _ _ (atom_cell a') v')|].
    eapply rtc_l; [apply prim_event|].
    by apply IH.
  - simpl. lia.
Qed.

(** ** Listener lists after [addEventListener] and [removeEventListener] *)

Lemma listeners_of_add t cb w t' :
  listeners_of t' (addEventListener t cb w)
  = if decide (t' = t ∧ is_Some (targets w !! t) ∧ cb ∉ (listeners_of t w).*2)
    then listeners_of t w ++ [(next_listener w, cb)]
    else listeners_of t' w.
Proof.
  unfold addEventListener, listeners_of.
  destruct (targets w !! t) as [ls|] eqn:E; simpl.
  - destruct (decide (cb ∈ ls.*2)) as [Hin|Hin].
    + rewrite decide_False; [done|]. intros (_ & _ & ?). done.
    + simpl. destruct (decide (t' = t)) as [->|Hne].
      * rewrite lookup_insert_eq. rewrite decide_True; [done|]. eauto.
      * rewrite lookup_insert_ne; [|done].
        rewrite decide_False; [done|]. by intros (? & _).
  - rewrite decide_False; [done|]. intros (_ & [? ?] & _). done.
Qed.

Lemma listeners_of_remove t cb w t' :
  listeners_of t' (removeEventListener t cb w)
  = if decide (t' = t) then filter (λ x : listener, x.2 ≠ cb) (listeners_of t w)
    else listeners_of t' w.
Proof.
  unfold removeEventListener, listeners_of.
  destruct (targets w !! t) as [ls|] eqn:E; simpl.
  - destruct (decide (t' = t)) as [->|Hne].
    + by rewrite lookup_insert_eq.
    + by rewrite lookup_insert_ne.
  - destruct (decide (t' = t)) as [->|Hne]; [|done]. by rewrite E.
Qed.

Lemma elem_of_listeners_add t cb w t' x :
  x ∈ listeners_of t' (addEventListener t cb w) ↔
  x ∈ listeners_of t' w
  ∨ (t' = t ∧ is_Some (targets w !! t) ∧ cb ∉ (listeners_of t w).*2
     ∧ x = (next_listener w, cb)).
Proof.
  rewrite listeners_of_add. case_decide as H.
  - destruct H as (-> & Hs & Hn). rewrite elem_of_app, list_elem_of_singleton.
    naive_solver.
  - naive_solver.
Qed.

Lemma elem_of_listeners_remove t cb w t' x :
  x ∈ listeners_of t' (removeEventListener t cb w) ↔
  x ∈ listeners_of t' w ∧ ¬ (t' = t ∧ x.2 = cb).
Proof.
  rewrite listeners_of_remove. case_decide as H.
  - subst. rewrite list_elem_of_filter. naive_solver.
  - naive_solver.
Qed.

Lemma next_listener_add t cb w :
  next_listener w ≤ next_listener (addEventListener t cb w).
Proof.
  unfold addEventListener. destruct (targets w !! t); [|done].
  case_decide; simpl; lia.
Qed.

Lemma next_listener_remove t cb w :
  next_listener (removeEventListener t cb w) = next_listener w.
Proof. unfold removeEventListener. by destruct (targets w !! t). Qed.

Lemma next_listener_notify g w :
  next_listener (setSnapshot_getSnapshot g w) = next_listener w.
Proof.
  unfold setSnapshot_getSnapshot.
  destruct (the_fiber w) as [f|]; [|done].
  destruct (f_queue f); [|done].
  destruct (f_lanes f || alternate_lanes f); [done|].
  destruct (atom_get g w); simpl; [|done].
  by case_decide.
Qed.

Lemma listeners_of_lookup t w ls :
  targets w !! t = Some ls → listeners_of t w = ls.
Proof. unfold listeners_of. by intros ->. Qed.

Lemma targets_add_lookup t cb w t' ls :
  targets (addEventListener t cb w) !! t' = Some ls →
  ls = listeners_of t' (addEventListener t cb w) ∧ is_Some (targets w !! t').
Proof.
  intros H. split; [by rewrite (listeners_of_lookup _ _ _ H)|].
  revert H. unfold addEventListener.
  destruct (targets w !! t) as [ls0|] eqn:E; [|by eauto].
  case_decide; [by eauto|]. simpl.
  destruct (decide (t' = t)) as [->|Hne]; [by eauto|].
  rewrite lookup_insert_ne; [|done]. eauto.
Qed.

Lemma targets_remove_lookup t cb w t' ls :
  targets (removeEventListener t cb w) !! t' = Some ls →
  ls = listeners_of t' (removeEventListener t cb w) ∧ is_Some (targets w !! t').
Proof.
  intros H. split; [by rewrite (listeners_of_lookup _ _ _ H)|].
  revert H. unfold removeEventListener.
  destruct (targets w !! t) as [ls0|] eqn:E; [|by eauto].
  simpl. destruct (decide (t' = t)) as [->|Hne]; [by eauto|].
  rewrite lookup_insert_ne; [|done]. eauto.
Qed.

(** ** The fiber after a notification *)

Lemma fiber_notify_none g w :
  the_fiber w = None → setSnapshot_getSnapshot g w = w.
Proof. unfold setSnapshot_getSnapshot. by intros ->. Qed.

Lemma fiber_notify g w f :
  the_fiber w = Some f →
  ∃ f', the_fiber (setSnapshot_getSnapshot g w) = Some f'
        ∧ f_state f' = f_state f ∧ f_props f' = f_props f
        ∧ f_deps f' = f_deps f ∧ f_cleanup f' = f_cleanup f
        ∧ f_renders f' = f_renders f.
Proof.
  intros Hf. unfold setSnapshot_getSnapshot. rewrite Hf.
  destruct (f_queue f) eqn:Q.
  - destruct (f_lanes f || alternate_lanes f); [simpl; by eauto 10|].
    destruct (atom_get g w); simpl; [|by eauto 10].
    case_decide; simpl; eauto 10.
  - simpl. eauto 10.
Qed.

(** ** What primitive steps leave in place *)

Lemma trace_notify g w :
  ∃ seg, trace (setSnapshot_getSnapshot g w) = trace w ++ seg
         ∧ (seg = [] ∨ seg = [Got g (atom_get g w)]).
Proof.
  unfold setSnapshot_getSnapshot.
  destruct (the_fiber w) as [f|]; [|exists []; by rewrite app_nil_r; auto].
  destruct (f_queue f).
  - destruct (f_lanes f || alternate_lanes f).
    { exists []. simpl. rewrite app_nil_r. auto. }
    exists [Got g (atom_get g w)]. split; [|by right].
    destruct (atom_get g w); simpl; [|done]. by case_decide.
  - exists []. simpl. rewrite app_nil_r. auto.
Qed.

Lemma cells_notify g w : cells (setSnapshot_getSnapshot g w) = cells w.
Proof.
  unfold setSnapshot_getSnapshot.
  destruct (the_fiber w) as [f|]; [|done].
  destruct (f_queue f); [|done].
  destruct (f_lanes f || alternate_lanes f); [done|].
  destruct (atom_get g w); simpl; [|done].
  by case_decide.
Qed.

Lemma cells_add t cb w : cells (addEventListener t cb w) = cells w.
Proof.
  unfold addEventListener. destruct (targets w !! t); [|done]. by case_decide.
Qed.

Lemma cells_remove t cb w : cells (removeEventListener t cb w) = cells w.
Proof. unfold removeEventListener. by destruct (targets w !! t). Qed.

Lemma trace_add t cb w : trace (addEventListener t cb w) = trace w.
Proof.
  unfold addEventListener. destruct (targets w !! t); [|done]. by case_decide.
Qed.

Lemma trace_remove t cb w : trace (removeEventListener t cb w) = trace w.
Proof. unfold removeEventListener. by destruct (targets w !! t). Qed.

Lemma fiber_add t cb w : the_fiber (addEventListener t cb w) = the_fiber w.
Proof.
  unfold addEventListener. destruct (targets w !! t); [|done]. by case_decide.
Qed.

Lemma fiber_remove t cb w : the_fiber (removeEventListener t cb w) = the_fiber w.
Proof. unfold removeEventListener. by destruct (targets w !! t). Qed.

Lemma targets_add_some t cb w t' :
  is_Some (targets w !! t') → is_Some (targets (addEventListener t cb w) !! t').
Proof.
  intros H. unfold addEventListener.
  destruct (targets w !! t) as [ls|] eqn:E; [|done].
  case_decide; [done|]. simpl.
  destruct (decide (t' = t)) as [->|Hne].
  - rewrite lookup_insert_eq. eauto.
  - by rewrite lookup_insert_ne.
Qed.

Lemma targets_remove_some t cb w t' :
  is_Some (targets w !! t') → is_Some (targets (removeEventListener t cb w) !! t').
Proof.
  intros H. unfold removeEventListener.
  destruct (targets w !! t) as [ls|] eqn:E; [|done]. simpl.
  destruct (decide (t' = t)) as [->|Hne].
  - rewrite lookup_insert_eq. eauto.
  - by rewrite lookup_insert_ne.
Qed.

Lemma fiber_same_refl (w : world) :
  match the_fiber w with
  | None => the_fiber w = None
  | Some f => ∃ f', the_fiber w = Some f'
      ∧ f_state f' = f_state f ∧ f_props f' = f_props f
      ∧ f_deps f' = f_deps f ∧ f_cleanup f' = f_cleanup f
      ∧ f_renders f' = f_renders f
  end.
Proof. destruct (the_fiber w) as [f|]; [|done]. exists f. done. Qed.

(** ** The values the trace records *)

Lemma last_stored_app c (s1 s2 : list (event T)) d :
  last_stored c (s1 ++ s2) d = last_stored c s2 (last_stored c s1 d).
Proof. unfold last_stored. by rewrite foldl_app. Qed.

Lemma last_stored_none c (seg : list (event T)) d :
  (∀ v, Stored c v ∉ seg) → last_stored c seg d = d.
Proof.
  revert d. induction seg as [|ev seg IH]; intros d Hno; [done|].
  change (last_stored c (ev :: seg) d)
    with (last_stored c seg (last_stored c [ev] d)).
  rewrite IH; [|intros v Hin; apply (Hno v); by right].
  destruct ev as [c' v| |]; try done. unfold last_stored. simpl.
  case_decide as Hc; [|done]. subst c'. exfalso. apply (Hno v). by left.
Qed.

Lemma last_stored_some c (seg : list (event T)) d v :
  Stored c v ∈ seg → ∃ v', Stored c v' ∈ seg ∧ last_stored c seg d = Some v'.
Proof.
  revert v. induction seg as [|ev seg IH] using rev_ind; intros v Hin.
  { by apply not_elem_of_nil in Hin. }
  rewrite last_stored_app.
  apply elem_of_app in Hin as [Hin|Hin%list_elem_of_singleton].
  - destruct (IH v Hin) as (v' & Hin' & E).
    destruct ev as [c1 v1| |].
    + unfold last_stored at 1. simpl. case_decide as Hc.
      * subst c1. exists v1. split; [|done]. apply elem_of_app. right. by left.
      * exists v'. split; [|done]. apply elem_of_app. by left.
    + exists v'. split; [|done]. apply elem_of_app. by left.
    + exists v'. split; [|done]. apply elem_of_app. by left.
  - subst ev. exists v. split; [apply elem_of_app; right; by left|].
    unfold last_stored at 1. simpl. by rewrite decide_True.
Qed.

Lemma coherent_ext (d d' : nat → option T) seg :
  (∀ c, d c = d' c) → coherent d seg → coherent d' seg.
Proof.
  revert d d'. induction seg as [|ev seg IH]; intros d d' Hd; [done|].
  destruct ev as [c v|t l cb args|a x]; simpl.
  - apply IH. intros c'. case_decide; [done|apply Hd].
  - by apply IH.
  - intros [-> H]. split; [apply Hd|]. by eapply IH.
Qed.

Lemma coherent_app (d : nat → option T) (s1 s2 : list (event T)) :
  coherent d s1 → coherent (λ c, last_stored c s1 (d c)) s2 →
  coherent d (s1 ++ s2).
Proof.
  revert d. induction s1 as [|ev s1 IH]; intros d H1 H2; [done|].
  destruct ev as [c v|t l cb args|a x]; simpl in *.
  - apply IH; [done|]. eapply coherent_ext; [|exact H2].
    intros c'. unfold last_stored. simpl. done.
  - by apply IH.
  - destruct H1 as [-> H1]. split; [done|]. by apply IH.
Qed.

Lemma coherent_got (d : nat → option T) (s1 s2 : list (event T)) a x :
  coherent d (s1 ++ Got a x :: s2) →
  x = last_stored (atom_cell a) s1 (d (atom_cell a)).
Proof.
  revert d. induction s1 as [|ev s1 IH]; intros d H.
  { simpl in H. by destruct H as [-> _]. }
  destruct ev as [c v|t l cb args|a' x']; simpl in H.
  - rewrite (IH _ H). unfold last_stored. simpl. done.
  - by rewrite (IH _ H).
  - destruct H as [_ H]. by rewrite (IH _ H).
Qed.

Lemma ext_refl W U lo w : ext W U lo w w.
Proof.
  split; try done; eauto.
  - apply fiber_same_refl.
  - exists []. rewrite app_nil_r. split; [done|].
    split; [intros ???? []%not_elem_of_nil|].
    split; [intros ?? []%not_elem_of_nil|].
    split; [intros ?? []%not_elem_of_nil|]. done.
Qed.

Lemma ext_trans W U lo w1 w2 w3 :
  ext W U lo w1 w2 → ext W U lo w2 w3 → ext W U lo w1 w3.
Proof.
  intros H12 H23. split.
  - pose proof (ext_next_event _ _ _ _ _ H12).
    pose proof (ext_next_event _ _ _ _ _ H23). lia.
  - pose proof (ext_next_listener _ _ _ _ _ H12).
    pose proof (ext_next_listener _ _ _ _ _ H23). lia.
  - intros c Hc. rewrite (ext_cells _ _ _ _ _ H23 c Hc).
    apply (ext_cells _ _ _ _ _ H12 c Hc).
  - intros c Hc. eapply (ext_alloc _ _ _ _ _ H23), (ext_alloc _ _ _ _ _ H12), Hc.
  - intros t Ht.
    eapply (ext_targets _ _ _ _ _ H23), (ext_targets _ _ _ _ _ H12), Ht.
  - intros t l cb Hin HU.
    eapply (ext_keep _ _ _ _ _ H23); [|done].
    by eapply (ext_keep _ _ _ _ _ H12).
  - intros t l cb Hin.
    destruct (ext_new _ _ _ _ _ H23 _ _ _ Hin) as [Hin2|[Hl Hu]].
    + apply (ext_new _ _ _ _ _ H12 _ _ _ Hin2).
    + right. split; [|done].
      pose proof (ext_next_listener _ _ _ _ _ H12). lia.
  - pose proof (ext_fiber _ _ _ _ _ H12) as F12.
    pose proof (ext_fiber _ _ _ _ _ H23) as F23.
    destruct (the_fiber w1) as [f1|].
    + destruct F12 as (f2 & E2 & ? & ? & ? & ? & ?). rewrite E2 in F23.
      destruct F23 as (f3 & E3 & ? & ? & ? & ? & ?).
      exists f3. repeat split; congruence.
    + rewrite F12 in F23. done.
  - destruct (ext_trace _ _ _ _ _ H12) as (s1 & E1 & I1 & G1 & S1 & C1 & L1).
    destruct (ext_trace _ _ _ _ _ H23) as (s2 & E2 & I2 & G2 & S2 & C2 & L2).
    exists (s1 ++ s2). split; [by rewrite E2, E1, app_assoc|].
    split; [|split; [|split; [|split]]].
    + intros t l cb args [Hin|Hin]%elem_of_app; eauto.
    + intros a x [Hin|Hin]%elem_of_app HW; [eauto|].
      rewrite (G2 a x Hin HW). by apply (ext_cells _ _ _ _ _ H12).
    + intros c v [Hin|Hin]%elem_of_app; eauto.
    + apply coherent_app; [done|]. eapply coherent_ext; [|exact C2].
      intros c. apply L1.
    + intros c. by rewrite last_stored_app, L2, L1.
Qed.

Lemma ext_trace_nil W lo w w' :
  trace w' = trace w → cells w' = cells w →
  ∃ seg, trace w' = trace w ++ seg
    ∧ (∀ t l cb args, Invoked t l cb args ∈ seg → ∃ e, args = [e] ∧ lo ≤ e)
    ∧ (∀ a x, Got a x ∈ seg → ¬ W (atom_cell a) → x = cells w !! atom_cell a)
    ∧ (∀ c (v : T), Stored c v ∈ seg → W c)
    ∧ coherent (λ c, cells w !! c) seg
    ∧ (∀ c, cells w' !! c = last_stored c seg (cells w !! c)).
Proof.
  intros Et Ec. exists []. rewrite app_nil_r. split; [done|].
  split; [intros ???? []%not_elem_of_nil|].
  split; [intros ?? []%not_elem_of_nil|].
  split; [intros ?? []%not_elem_of_nil|]. split; [done|].
  intros c. by rewrite Ec.
Qed.

Lemma prim_ext W U lo w w' : prim W U lo w w' → ext W U lo w w'.
Proof.
  intros H. destruct H as [c v w HW|w|t l cb e w Hin Hlo He|a w|t n w|t n w HU
                           |t l k g w Hin].
  - (* the value is stored *)
    split; simpl; try done; eauto.
    + intros c' Hc'. rewrite lookup_insert_ne; [done|]. by intros ->.
    + intros c' Hc'. destruct (decide (c = c')) as [->|Hne].
      * rewrite lookup_insert_eq. eauto.
      * by rewrite lookup_insert_ne.
    + apply fiber_same_refl.
    + exists [Stored c v]. split; [done|].
      split; [by intros ???? ?%list_elem_of_singleton|].
      split; [by intros ?? ?%list_elem_of_singleton|].
      split; [by intros c' v' [= -> ->]%list_elem_of_singleton|].
      split; [done|].
      intros c'. unfold last_stored. simpl. apply lookup_insert.
  - (* the event object is allocated *)
    split; simpl; try done; eauto.
    + apply fiber_same_refl.
    + by apply ext_trace_nil.
  - (* a listener is called *)
    split; simpl; try done; eauto.
    + apply fiber_same_refl.
    + exists [Invoked t l cb [e]]. split; [done|].
      split; [intros t' l' cb' args [= -> -> -> ->]%list_elem_of_singleton; eauto|].
      split; [by intros ?? ?%list_elem_of_singleton|].
      split; [by intros ?? ?%list_elem_of_singleton|]. done.
  - (* get *)
    split; simpl; try done; eauto.
    + apply fiber_same_refl.
    + exists [Got a (atom_get a w)]. split; [done|].
      split; [by intros ???? ?%list_elem_of_singleton|].
      split; [by intros a' x [= -> ->]%list_elem_of_singleton|].
      split; [by intros ?? ?%list_elem_of_singleton|]. done.
  - (* addEventListener *)
    split.
    + by rewrite next_event_add.
    + apply next_listener_add.
    + intros c _. by rewrite cells_add.
    + intros c. by rewrite cells_add.
    + intros t'. apply targets_add_some.
    + intros t' l cb Hin _. apply elem_of_listeners_add. by left.
    + intros t' l cb [Hin|(-> & _ & _ & [= -> ->])]%elem_of_listeners_add.
      * by left.
      * right. eauto.
    + rewrite fiber_add. apply fiber_same_refl.
    + apply ext_trace_nil; [apply trace_add|apply cells_add].
  - (* removeEventListener *)
    split.
    + by rewrite next_event_remove.
    + by rewrite next_listener_remove.
    + intros c _. by rewrite cells_remove.
    + intros c. by rewrite cells_remove.
    + intros t'. apply targets_remove_some.
    + intros t' l cb Hin Hkeep. apply elem_of_listeners_remove.
      split; [done|]. simpl. intros [-> ->]. by eapply Hkeep.
    + intros t' l cb [Hin _]%elem_of_listeners_remove. by left.
    + rewrite fiber_remove. apply fiber_same_refl.
    + apply ext_trace_nil; [apply trace_remove|apply cells_remove].
  - (* the shim's callback *)
    split.
    + by rewrite next_event_notify.
    + by rewrite next_listener_notify.
    + intros c _. by rewrite cells_notify.
    + intros c. by rewrite cells_notify.
    + intros t'. by rewrite targets_notify.
    + intros t' l' cb. by rewrite listeners_of_notify.
    + intros t' l' cb. rewrite listeners_of_notify. by left.
    + destruct (the_fiber w) as [f|] eqn:F.
      * by apply fiber_notify.
      * by rewrite fiber_notify_none.
    + destruct (trace_notify g w) as (seg & E & [->| ->]).
      * apply ext_trace_nil; [by rewrite E, app_nil_r|apply cells_notify].
      * exists [Got g (atom_get g w)]. split; [done|].
        split; [by intros ???? ?%list_elem_of_singleton|].
        split; [by intros a' x [= -> ->]%list_elem_of_singleton|].
        split; [by intros ?? ?%list_elem_of_singleton|].
        split; [done|]. intros c. by rewrite cells_notify.
Qed.

Lemma steps_ext W U lo w w' : steps W U lo w w' → ext W U lo w w'.
Proof.
  induction 1 as [|w1 w2 w3 H12 _ IH]; [apply ext_refl|].
  eapply ext_trans; [|exact IH]. by apply prim_ext.
Qed.

Lemma atom_set_ext fuel a v w w' lo :
  lo ≤ next_event w → atom_set prog fuel a v w = Some w' →
  ext Wp Up lo (committed a v w) w'.
Proof. intros Hlo Hrun. by eapply steps_ext, atom_set_pass_steps. Qed.

(** ** Well-formed worlds stay well-formed *)

Lemma wf_frame w w' :
  targets w' = targets w → next_listener w' = next_listener w →
  next_closure w' = next_closure w →
  the_fiber w' = the_fiber w → wf w → wf w'.
Proof.
  intros Ht Hn Hc Hf [H1 H2 H3 H4]. split.
  - intros t ls. rewrite Ht. apply H1.
  - intros t l cb. unfold listeners_of. rewrite Ht, Hn. apply H2.
  - intros t l k g. unfold listeners_of. rewrite Ht, Hf. apply H3.
  - intros f u. rewrite Hf, Hc. apply H4.
Qed.

Lemma next_closure_add t cb w :
  next_closure (addEventListener t cb w) = next_closure w.
Proof.
  unfold addEventListener. destruct (targets w !! t); [|done]. by case_decide.
Qed.

Lemma next_closure_remove t cb w :
  next_closure (removeEventListener t cb w) = next_closure w.
Proof. unfold removeEventListener. by destruct (targets w !! t). Qed.

Lemma next_closure_notify g w :
  next_closure (setSnapshot_getSnapshot g w) = next_closure w.
Proof.
  unfold setSnapshot_getSnapshot.
  destruct (the_fiber w) as [f|]; [|done].
  destruct (f_queue f); [|done].
  destruct (f_lanes f || alternate_lanes f); [done|].
  destruct (atom_get g w); simpl; [|done].
  by case_decide.
Qed.

(** The part of [wf] that is about the listener lists alone. *)
Lemma nodup_add t cb w :
  (∀ t' ls, targets w !! t' = Some ls → NoDup ls.*2) →
  ∀ t' ls, targets (addEventListener t cb w) !! t' = Some ls → NoDup ls.*2.
Proof.
  intros H1 t' ls [-> [ls0 E0]]%targets_add_lookup.
  rewrite listeners_of_add. case_decide as Hc.
  - destruct Hc as (-> & [ls1 E1] & Hnot).
    rewrite fmap_app. apply NoDup_app. split; [|split].
    + rewrite (listeners_of_lookup _ _ _ E1). by eapply H1.
    + intros x Hx [= ->]%list_elem_of_singleton. done.
    + apply NoDup_singleton.
  - rewrite (listeners_of_lookup _ _ _ E0). by eapply H1.
Qed.

Lemma ids_add t cb w :
  (∀ t' l cb', (l, cb') ∈ listeners_of t' w → l < next_listener w) →
  ∀ t' l cb', (l, cb') ∈ listeners_of t' (addEventListener t cb w) →
    l < next_listener (addEventListener t cb w).
Proof.
  intros H2 t' l cb' Hin.
  pose proof (next_listener_add t cb w) as Hle.
  apply elem_of_listeners_add in Hin as [Hin|(Heq & [ls E] & Hnot & [= -> ->])].
  - apply H2 in Hin. lia.
  - subst t'. unfold addEventListener. rewrite E.
    rewrite (listeners_of_lookup _ _ _ E) in Hnot.
    rewrite decide_False; [|done]. simpl. lia.
Qed.

Lemma nodup_remove t cb w :
  (∀ t' ls, targets w !! t' = Some ls → NoDup ls.*2) →
  ∀ t' ls, targets (removeEventListener t cb w) !! t' = Some ls → NoDup ls.*2.
Proof.
  intros H1 t' ls [-> [ls0 E0]]%targets_remove_lookup.
  rewrite listeners_of_remove. case_decide as Hc.
  - subst t'. rewrite (listeners_of_lookup _ _ _ E0).
    eapply sublist_NoDup; [by eapply H1|].
    apply fmap_sublist, sublist_filter.
  - rewrite (listeners_of_lookup _ _ _ E0). by eapply H1.
Qed.

Lemma ids_remove t cb w :
  (∀ t' l cb', (l, cb') ∈ listeners_of t' w → l < next_listener w) →
  ∀ t' l cb', (l, cb') ∈ listeners_of t' (removeEventListener t cb w) →
    l < next_listener (removeEventListener t cb w).
Proof.
  intros H2 t' l cb' [Hin _]%elem_of_listeners_remove.
  rewrite next_listener_remove. by eapply H2.
Qed.

Lemma wf_add t n w : wf w → wf (addEventListener t (CbUser n) w).
Proof.
  intros [H1 H2 H3 H4]. split.
  - by apply nodup_add.
  - by apply ids_add.
  - intros t' l k g [Hin|(_ & _ & _ & [=])]%elem_of_listeners_add.
    rewrite fiber_add. by eapply H3.
  - intros f u. rewrite fiber_add, next_closure_add. apply H4.
Qed.

Lemma wf_remove t cb w :
  (∀ k g, cb ≠ CbShim k g) → wf w → wf (removeEventListener t cb w).
Proof.
  intros Hcb [H1 H2 H3 H4]. split.
  - by apply nodup_remove.
  - by apply ids_remove.
  - intros t' l k g [Hin _]%elem_of_listeners_remove.
    rewrite fiber_remove. by eapply H3.
  - intros f u. rewrite fiber_remove, next_closure_remove. apply H4.
Qed.

Lemma wf_notify g w : wf w → wf (setSnapshot_getSnapshot g w).
Proof.
  intros [H1 H2 H3 H4]. split.
  - intros t ls. rewrite targets_notify. apply H1.
  - intros t l cb. rewrite listeners_of_notify, next_listener_notify. apply H2.
  - intros t l k g'. rewrite listeners_of_notify. intros Hin.
    destruct (H3 _ _ _ _ Hin) as (f & Hf & Hc & s & Hd).
    destruct (fiber_notify g w f Hf) as (f' & Hf' & _ & _ & Hd' & Hc' & _).
    exists f'. split; [done|]. split; [congruence|]. exists s. congruence.
  - intros f' u Hf' Hc'. rewrite next_closure_notify.
    destruct (the_fiber w) as [f|] eqn:Hf.
    + destruct (fiber_notify g w f Hf) as (f2 & Hf2 & _ & _ & _ & Hc2 & _).
      apply (H4 f u); [done|]. congruence.
    + rewrite (fiber_notify_none g w Hf) in Hf'. congruence.
Qed.

Lemma prim_wf W U lo w w' : prim W U lo w w' → wf w → wf w'.
Proof.
  destruct 1; try (by apply wf_frame).
  - apply wf_add.
  - by apply wf_remove.
  - apply wf_notify.
Qed.

Lemma steps_wf W U lo w w' : steps W U lo w w' → wf w → wf w'.
Proof. induction 1; eauto using prim_wf. Qed.

Lemma wf_committed a (v : T) w : wf w → wf (committed a v w).
Proof. by apply wf_frame. Qed.

Lemma atom_set_wf fuel a v w w' :
  atom_set prog fuel a v w = Some w' → wf w → wf w'.
Proof.
  intros Hrun Hwf. eapply steps_wf.
  - by eapply (atom_set_pass_steps _ _ _ _ _ 0); [lia|].
  - by apply wf_committed.
Qed.

(** ** Termination: a program whose callbacks never call [set] *)

Lemma run_body_total set_rec acts w :
  (∀ act, act ∈ acts → is_set act = false) →
  is_Some (run_body set_rec acts w).
Proof.
  revert w. induction acts as [|act rest IH]; intros w Hall; [by eexists|].
  assert (∀ act', act' ∈ rest → is_set act' = false) as Hrest.
  { intros act' Hin. apply Hall. by right. }
  assert (is_set act = false) as Hact by (apply Hall; left).
  destruct act; simpl; try done; eauto.
Qed.

Lemma inner_invoke_total set_rec t e clone w :
  reentrant prog = false →
  is_Some (inner_invoke prog set_rec t e clone w).
Proof.
  intros Hre. revert w. induction clone as [|[l cb] rest IH]; intros w.
  { by eexists. }
  simpl. case_decide; [|apply IH].
  destruct cb as [n|k g]; simpl.
  - destruct (run_body_total set_rec (body prog n)
                (log (Invoked t l (CbUser n) [e]) w)) as [w1 E].
    { intros act. by apply body_not_reentrant. }
    rewrite E. simpl. apply IH.
  - apply IH.
Qed.

Lemma atom_set_total fuel a v w :
  reentrant prog = false → is_Some (atom_set prog (S fuel) a v w).
Proof. intros Hre. rewrite atom_set_unfold. by apply inner_invoke_total. Qed.

Lemma set_all_total fuel a vs w :
  reentrant prog = false → is_Some (set_all prog (S fuel) a vs w).
Proof.
  intros Hre. revert w. induction vs as [|v rest IH]; intros w; [by eexists|].
  cbn [set_all]. destruct (atom_set_total fuel a v w Hre) as [w1 E].
  rewrite E. simpl. apply IH.
Qed.

Lemma atom_set_steps fuel a v w w' lo :
  lo ≤ next_event w → sets_cell prog (atom_cell a) = true →
  atom_set prog fuel a v w = Some w' → steps Wp Up lo w w'.
Proof.
  intros Hlo HW Hrun.
  eapply rtc_l; [by apply (prim_store _ _ _ (atom_cell a) v)|].
  eapply rtc_l; [apply prim_event|].
  by apply (atom_set_pass_steps fuel).
Qed.

Lemma invoke_callback_ext fuel t l cb w w' lo :
  (l, cb) ∈ listeners_of t w → lo ≤ next_event w →
  invoke_callback prog (atom_set prog fuel) cb w = Some w' →
  ext Wp Up lo w w'.
Proof.
  intros Hin Hlo Hrun. apply steps_ext.
  eapply (invoke_callback_steps (atom_set prog fuel));
    [|exact Hin|exact Hlo|exact Hrun].
  intros a v w1 w1' lo'. apply (atom_set_steps fuel).
Qed.

(** ** More fuel does not change the result *)

Lemma run_body_mono (set_rec set_rec' : Atom → T → world → option world)
    acts w w' :
  (∀ a v w1 w1', set_rec a v w1 = Some w1' → set_rec' a v w1 = Some w1') →
  run_body set_rec acts w = Some w' → run_body set_rec' acts w = Some w'.
Proof.
  intros Hm. revert w. induction acts as [|act rest IH]; intros w; [done|].
  destruct act as [a|a v|a n|a n|]; simpl; try apply IH; [|done].
  destruct (set_rec a v w) as [w1|] eqn:E; [|done]. simpl.
  rewrite (Hm _ _ _ _ E). simpl. apply IH.
Qed.

Lemma inner_invoke_mono (set_rec set_rec' : Atom → T → world → option world)
    t e clone w w' :
  (∀ a v w1 w1', set_rec a v w1 = Some w1' → set_rec' a v w1 = Some w1') →
  inner_invoke prog set_rec t e clone w = Some w' →
  inner_invoke prog set_rec' t e clone w = Some w'.
Proof.
  intros Hm. revert w. induction clone as [|[l cb] rest IH]; intros w; [done|].
  simpl. case_decide; [|apply IH].
  destruct (invoke_callback prog set_rec cb (log (Invoked t l cb [e]) w))
    as [w1|] eqn:E; [|done].
  simpl. intros Hrun.
  assert (invoke_callback prog set_rec' cb (log (Invoked t l cb [e]) w) = Some w1)
    as ->.
  { destruct cb as [n|k g]; simpl in *; [|done]. by eapply run_body_mono. }
  simpl. by apply IH.
Qed.

Lemma atom_set_mono fuel a v w w' :
  atom_set prog fuel a v w = Some w' → atom_set prog (S fuel) a v w = Some w'.
Proof.
  revert a v w w'. induction fuel as [|fuel IH]; intros a v w w'; [done|].
  rewrite !atom_set_unfold. apply inner_invoke_mono. apply IH.
Qed.

Lemma atom_set_fuel fuel fuel' a v w w' :
  fuel ≤ fuel' →
  atom_set prog fuel a v w = Some w' → atom_set prog fuel' a v w = Some w'.
Proof.
  induction 1 as [|fuel' _ IH]; [done|]. intros H. by apply atom_set_mono, IH.
Qed.

(** ** Counting deliveries *)

Lemma deliveries_nil t e cb : deliveries t e cb ([] : list (event T)) = 0.
Proof. done. Qed.

Lemma deliveries_app t e cb (s1 s2 : list (event T)) :
  deliveries t e cb (s1 ++ s2) = deliveries t e cb s1 + deliveries t e cb s2.
Proof. unfold deliveries. by rewrite filter_app, length_app. Qed.

Lemma deliveries_cons t e cb (ev : event T) seg :
  deliveries t e cb (ev :: seg)
  = (if is_delivery t e cb ev then 1 else 0) + deliveries t e cb seg.
Proof.
  unfold deliveries. rewrite filter_cons.
  destruct (decide (is_delivery t e cb ev)) as [H|H];
    destruct (is_delivery t e cb ev); simpl in *; done.
Qed.

Lemma deliveries_none t e cb (seg : list (event T)) :
  (∀ l, Invoked t l cb [e] ∉ seg) → deliveries t e cb seg = 0.
Proof.
  induction seg as [|ev seg IH]; intros Hno; [done|].
  rewrite deliveries_cons, IH.
  - destruct ev as [c v|t' l' cb' args|a x]; simpl; [done| |done].
    case_bool_decide as Hd; [|done].
    destruct Hd as (-> & -> & ->). exfalso. apply (Hno l'). by left.
  - intros l Hin. apply (Hno l). by right.
Qed.

Lemma deliveries_invoked t e cb l :
  deliveries t e cb [Invoked t l cb [e] : event T] = 1.
Proof.
  rewrite deliveries_cons. simpl. by rewrite bool_decide_eq_true_2.
Qed.

Lemma deliveries_other t e cb l cb' :
  cb' ≠ cb → deliveries t e cb [Invoked t l cb' [e] : event T] = 0.
Proof.
  intros Hne. rewrite deliveries_cons. simpl.
  rewrite bool_decide_eq_false_2; [done|]. by intros (_ & ? & _).
Qed.

(** ** One notification pass

    The walk over the clone delivers the event [e] to listeners of the clone
    only, to each of them at most once, and to each one that is still
    registered when its turn comes. *)
Lemma inner_invoke_ext fuel t e clone w w' lo :
  lo ≤ e → e < next_event w →
  inner_invoke prog (atom_set prog fuel) t e clone w = Some w' →
  ext Wp Up lo w w'.
Proof.
  intros Hlo He Hrun. apply steps_ext.
  eapply (inner_invoke_steps (atom_set prog fuel)); [|exact Hlo|exact He|exact Hrun].
  intros a v w1 w1' lo'. apply (atom_set_steps fuel).
Qed.

Lemma pass_deliveries fuel t e clone w w' :
  e < next_event w →
  inner_invoke prog (atom_set prog fuel) t e clone w = Some w' →
  ∃ seg, trace w' = trace w ++ seg
    ∧ (∀ t' l cb, Invoked t' l cb [e] ∈ seg → t' = t ∧ (l, cb) ∈ clone)
    ∧ (∀ t' l cb args, Invoked t' l cb args ∈ seg → ∃ e', args = [e'] ∧ e ≤ e')
    ∧ (NoDup clone.*2 → ∀ cb,
        deliveries t e cb seg ≤ 1
        ∧ (∀ l, (l, cb) ∈ clone →
             ((l, cb) ∈ listeners_of t w ∧ stays_subscribed prog t cb)
             ∨ ((l, cb) ∈ listeners_of t w' ∧ l < next_listener w) →
             deliveries t e cb seg = 1)).
Proof.
  revert w. induction clone as [|[l0 cb0] rest IH]; intros w He Hrun.
  { simpl in Hrun. injection Hrun as <-. exists []. rewrite app_nil_r.
    split; [done|]. split; [intros ??? []%not_elem_of_nil|].
    split; [intros ???? []%not_elem_of_nil|].
    intros _ cb. rewrite deliveries_nil. split; [lia|].
    intros ? []%not_elem_of_nil. }
  simpl in Hrun. case_decide as Hpresent.
  - (* the listener is called *)
    destruct (invoke_callback prog (atom_set prog fuel) cb0
                (log (Invoked t l0 cb0 [e]) w)) as [w1|] eqn:E; [|done].
    simpl in Hrun.
    assert (ext Wp Up (next_event w) (log (Invoked t l0 cb0 [e]) w) w1) as Hext.
    { eapply invoke_callback_ext; [|done|exact E]. by rewrite listeners_of_log. }
    destruct (ext_trace _ _ _ _ _ Hext) as (s1 & E1 & I1 & _).
    pose proof (ext_next_event _ _ _ _ _ Hext) as Hne. simpl in Hne.
    pose proof (ext_next_listener _ _ _ _ _ Hext) as Hnl. simpl in Hnl.
    destruct (IH w1 ltac:(lia) Hrun) as (s2 & E2 & O2 & A2 & C2).
    exists (Invoked t l0 cb0 [e] :: s1 ++ s2).
    split. { rewrite E2, E1. simpl. by rewrite <- !app_assoc. }
    assert (∀ t' l cb, Invoked t' l cb [e] ∉ s1) as Hnested.
    { intros t' l cb Hin. destruct (I1 _ _ _ _ Hin) as (e' & [= <-] & Hle). lia. }
    split; [|split].
    + intros t' l cb [[= -> -> ->]|[Hin|Hin]%elem_of_app]%elem_of_cons.
      * split; [done|]. by left.
      * by apply Hnested in Hin.
      * destruct (O2 _ _ _ Hin) as [-> Hin']. split; [done|]. by right.
    + intros t' l cb args [[= -> -> -> ->]|[Hin|Hin]%elem_of_app]%elem_of_cons.
      * eauto.
      * destruct (I1 _ _ _ _ Hin) as (e' & -> & Hle). exists e'. split; [done|lia].
      * eauto.
    + intros Hnd cb.
      rewrite fmap_cons in Hnd. apply NoDup_cons in Hnd as [Hfresh Hnd].
      destruct (C2 Hnd cb) as (Cle & Cone).
      change (Invoked t l0 cb0 [e] :: s1 ++ s2)
        with ([Invoked t l0 cb0 [e]] ++ s1 ++ s2).
      rewrite !deliveries_app, (deliveries_none t e cb s1); [|by intros ?].
      destruct (decide (cb0 = cb)) as [->|Hne0].
      * rewrite deliveries_invoked, (deliveries_none t e cb s2).
        { split; [lia|done]. }
        intros l Hin. apply O2 in Hin as [_ Hin]. apply Hfresh.
        apply list_elem_of_fmap. by exists (l, cb).
      * rewrite deliveries_other; [|done]. simpl. split; [done|].
        intros l [[= -> ->]|Hin]%elem_of_cons Hcond; [done|].
        apply (Cone l Hin).
        destruct Hcond as [[Hreg Hstay]|[Hend Hl]].
        -- left. split; [|done].
           eapply (ext_keep _ _ _ _ _ Hext); [by rewrite listeners_of_log|].
           intros n -> HU. simpl in Hstay. congruence.
        -- right. split; [done|lia].
  - (* the listener was removed meanwhile *)
    destruct (IH w He Hrun) as (s2 & E2 & O2 & A2 & C2).
    exists s2. split; [done|]. split; [|split; [done|]].
    + intros t' l cb Hin. destruct (O2 _ _ _ Hin) as [-> Hin'].
      split; [done|]. by right.
    + intros Hnd cb.
      rewrite fmap_cons in Hnd. apply NoDup_cons in Hnd as [Hfresh Hnd].
      destruct (C2 Hnd cb) as (Cle & Cone).
      split; [done|].
      intros l [[= -> ->]|Hin]%elem_of_cons Hcond; [|by apply (Cone l Hin)].
      exfalso. destruct Hcond as [[Hreg _]|[Hend Hl]]; [done|].
      pose proof (inner_invoke_ext fuel t e rest w w' e (le_n _) He Hrun) as Hext.
      destruct (ext_new _ _ _ _ _ Hext _ _ _ Hend) as [Hreg|[Hge _]]; [done|lia].
Qed.

(** The same for a whole call of [set]. *)
Lemma atom_set_scope fuel a v w w' :
  atom_set prog fuel a v w = Some w' →
  ∃ seg, trace w' = trace w ++ Stored (atom_cell a) v :: seg
    ∧ (∀ t l cb, Invoked t l cb [next_event w] ∈ seg →
         t = atom_events a ∧ (l, cb) ∈ listeners_of (atom_events a) w)
    ∧ (∀ t l cb args, Invoked t l cb args ∈ seg →
         ∃ e', args = [e'] ∧ next_event w ≤ e')
    ∧ (wf w → ∀ cb,
        deliveries (atom_events a) (next_event w) cb seg ≤ 1
        ∧ (∀ l, (l, cb) ∈ listeners_of (atom_events a) w →
             stays_subscribed prog (atom_events a) cb
             ∨ (l, cb) ∈ listeners_of (atom_events a) w' →
             deliveries (atom_events a) (next_event w) cb seg = 1)).
Proof.
  intros Hrun. destruct fuel as [|fuel]; [done|].
  rewrite atom_set_unfold in Hrun.
  apply pass_deliveries in Hrun as (seg & E & O & A & C); [|simpl; lia].
  exists seg. split; [by rewrite E; simpl; rewrite <- app_assoc|].
  split; [done|]. split; [done|].
  intros Hwf cb.
  assert (NoDup (listeners_of (atom_events a) w).*2) as Hnd.
  { unfold listeners_of. destruct (targets w !! atom_events a) as [ls|] eqn:El.
    - simpl. by eapply wf_nodup.
    - simpl. apply NoDup_nil_2. }
  destruct (C Hnd cb) as (Cle & Cone).
  split; [done|]. intros l Hin Hcond. apply (Cone l Hin).
  destruct Hcond as [Hstay|Hend]; [by left|].
  right. split; [done|]. simpl. by eapply (wf_ids _ Hwf).
Qed.

Lemma atom_set_not_registered fuel a v w w' cb :
  cb ∉ (listeners_of (atom_events a) w).*2 →
  atom_set prog fuel a v w = Some w' →
  ∃ seg, trace w' = trace w ++ Stored (atom_cell a) v :: seg
    ∧ (∀ t l, Invoked t l cb [next_event w] ∉ seg)
    ∧ deliveries (atom_events a) (next_event w) cb seg = 0.
Proof.
  intros Hnot Hrun.
  destruct (atom_set_scope _ _ _ _ _ Hrun) as (seg & E & O & _).
  assert (∀ t l, Invoked t l cb [next_event w] ∉ seg) as Hno.
  { intros t l Hin. apply O in Hin as [_ Hin]. apply Hnot.
    apply list_elem_of_fmap. by exists (l, cb). }
  exists seg. split; [done|]. split; [done|].
  apply deliveries_none. intros l. apply Hno.
Qed.

(** ** [get] after [set] *)

Lemma atom_set_get fuel a v w w' :
  sets_cell prog (atom_cell a) = false →
  atom_set prog fuel a v w = Some w' → atom_get a w' = Some v.
Proof.
  intros Hq Hrun. unfold atom_get.
  pose proof (atom_set_ext fuel a v w w' 0 ltac:(lia) Hrun) as Hext.
  rewrite (ext_cells _ _ _ _ _ Hext); [|congruence].
  simpl. apply lookup_insert_eq.
Qed.

Lemma set_all_snoc fuel a vs v w :
  set_all prog fuel a (vs ++ [v]) w
  = set_all prog fuel a vs w ≫= atom_set prog fuel a v.
Proof.
  revert w. induction vs as [|v0 vs IH]; intros w; simpl.
  - by destruct (atom_set prog fuel a v w).
  - destruct (atom_set prog fuel a v0 w) as [w1|]; simpl; [apply IH|done].
Qed.

Lemma atom_set_trace fuel a v w w' :
  atom_set prog fuel a v w = Some w' →
  ∃ seg, trace w' = trace w ++ Stored (atom_cell a) v :: seg
    ∧ coherent (λ c, cells w !! c) (Stored (atom_cell a) v :: seg)
    ∧ (∀ c, cells w' !! c
            = last_stored c (Stored (atom_cell a) v :: seg) (cells w !! c))
    ∧ (∀ a' x, Got a' x ∈ seg → sets_cell prog (atom_cell a') = false →
         x = cells (committed a v w) !! atom_cell a').
Proof.
  intros Hrun.
  pose proof (atom_set_ext fuel a v w w' 0 ltac:(lia) Hrun) as Hext.
  destruct (ext_trace _ _ _ _ _ Hext) as (seg & E & _ & G & _ & C & L).
  exists seg. split; [by rewrite E; simpl; rewrite <- app_assoc|].
  split; [|split].
  - simpl. eapply coherent_ext; [|exact C]. intros c. simpl. apply lookup_insert.
  - intros c. rewrite L. simpl. unfold last_stored. simpl.
    by rewrite lookup_insert.
  - intros a' x Hin Hq. apply G; [done|congruence].
Qed.

Lemma set_all_trace fuel a vs w w' :
  set_all prog fuel a vs w = Some w' →
  ∃ seg, trace w' = trace w ++ seg
    ∧ (∀ c, cells w' !! c = last_stored c seg (cells w !! c)).
Proof.
  revert w. induction vs as [|v vs IH]; intros w; simpl.
  { intros [= <-]. exists []. by rewrite app_nil_r. }
  destruct (atom_set prog fuel a v w) as [w1|] eqn:E1; simpl; [|done].
  intros Hrun. destruct (IH _ Hrun) as (s2 & E2 & L2).
  destruct (atom_set_trace _ _ _ _ _ E1) as (s1 & E1' & _ & L1 & _).
  exists ((Stored (atom_cell a) v :: s1) ++ s2).
  split; [by rewrite E2, E1', <- app_assoc|].
  intros c. by rewrite last_stored_app, L2, L1.
Qed.

(** C1.  After [set(v1); ...; set(vn)] on an atom, [get()] returns the value
    that was assigned last: the trace of the calls contains the assignment
    of [vn], and [get()] returns the value of the last assignment to the
    variable that the trace records.  When no listener calls [set] on this
    atom, so that the calls of the sequence are all there are, that value is
    [vn].  The sequence being arbitrary, this holds after every prefix of it:
    [get] reads the variable and never a copy.  With callbacks that do not
    call [set] the sequence always runs to its end. *)
Theorem set_all_get fuel a vs v w :
  (∀ w', set_all prog fuel a (vs ++ [v]) w = Some w' →
     ∃ seg, trace w' = trace w ++ seg
       ∧ Stored (atom_cell a) v ∈ seg
       ∧ atom_get a w' = last_stored (atom_cell a) seg (atom_get a w)
       ∧ (sets_cell prog (atom_cell a) = false → atom_get a w' = Some v))
  ∧ (reentrant prog = false →
       is_Some (set_all prog (S fuel) a (vs ++ [v]) w)).
Proof.
  split; [|intros Hre; by apply set_all_total].
  intros w'. rewrite set_all_snoc.
  destruct (set_all prog fuel a vs w) as [w1|] eqn:E1; simpl; [|done].
  intros Hrun.
  destruct (set_all_trace _ _ _ _ _ E1) as (s1 & Et1 & L1).
  destruct (atom_set_trace _ _ _ _ _ Hrun) as (s2 & Et2 & _ & L2 & _).
  exists (s1 ++ Stored (atom_cell a) v :: s2).
  split; [by rewrite Et2, Et1, <- app_assoc|].
  split; [apply elem_of_app; right; by left|].
  split.
  - unfold atom_get. by rewrite last_stored_app, L2, L1.
  - intros Hq. by eapply atom_set_get.
Qed.

(** C2.  [set(v)] assigns the value before it notifies: the assignment is
    the first thing the call records, the listeners are called after it, and
    every [get()] on the atom made while they run (by a client callback or
    by the shim's callback) returns the value assigned last, which is [v] or
    what a listener has passed to [set] on this atom since, and not what the
    atom held before.  When no listener calls [set] on this atom, every such
    [get()] returns [v]. *)
Theorem get_inside_listener fuel a v w w' :
  atom_set prog fuel a v w = Some w' →
  ∃ seg, trace w' = trace w ++ Stored (atom_cell a) v :: seg
    ∧ (∀ (s1 s2 : list (event T)) a' x,
         seg = s1 ++ Got a' x :: s2 → atom_cell a' = atom_cell a →
         x = last_stored (atom_cell a) s1 (Some v))
    ∧ (sets_cell prog (atom_cell a) = false →
         ∀ a' x, Got a' x ∈ seg → atom_cell a' = atom_cell a → x = Some v).
Proof.
  intros Hrun.
  destruct (atom_set_trace _ _ _ _ _ Hrun) as (seg & E & C & _ & G).
  exists seg. split; [done|]. split.
  - intros s1 s2 a' x -> Hc. simpl in C.
    rewrite (coherent_got _ _ _ _ _ C), Hc. by rewrite decide_True.
  - intros Hq a' x Hin Hc. rewrite (G a' x Hin); [|by rewrite Hc].
    rewrite Hc. simpl. apply lookup_insert_eq.
Qed.

(** ** Notification *)



(** ** Unsubscribing *)

Lemma filter_idemp {A} (P : A → Prop) `{!∀ x, Decision (P x)} (ls : list A) :
  filter P (filter P ls) = filter P ls.
Proof.
  induction ls as [|x ls IH]; [done|].
  rewrite filter_cons. case_decide as HP.
  - by rewrite filter_cons_True, IH.
  - done.
Qed.

Lemma removeEventListener_idemp t cb w :
  removeEventListener t cb (removeEventListener t cb w)
  = removeEventListener t cb w.
Proof.
  unfold removeEventListener.
  destruct (targets w !! t) as [ls|] eqn:E; simpl.
  - rewrite lookup_insert_eq. unfold set_targets. simpl.
    by rewrite insert_insert_eq, filter_idemp.
  - by rewrite E.
Qed.

Lemma not_registered_after_remove t cb w :
  cb ∉ (listeners_of t (removeEventListener t cb w)).*2.
Proof.
  intros ([l' cb'] & Hcb & Hin)%list_elem_of_fmap. simpl in Hcb. subst cb'.
  apply elem_of_listeners_remove in Hin as [_ Hin]. by apply Hin.
Qed.

(** C4.  After the function returned by [subscribe(cb)] was called, [cb] is
    not in the listener list, and the event of a following [set] is not
    delivered to it.  Calling the function a second time changes nothing:
    the world is the same as after the first call. *)
Theorem unsubscribe_idempotent a cb w :
  let u := (atom_subscribe a cb w).1 in
  let w1 := (atom_subscribe a cb w).2 in
  let w2 := call_unsubscribe u w1 in
  cb ∉ (listeners_of (atom_events a) w2).*2
  ∧ (∀ fuel v w', atom_set prog fuel a v w2 = Some w' →
       ∃ seg, trace w' = trace w2 ++ Stored (atom_cell a) v :: seg
         ∧ (∀ t l, Invoked t l cb [next_event w2] ∉ seg)
         ∧ deliveries (atom_events a) (next_event w2) cb seg = 0)
  ∧ call_unsubscribe u w2 = w2.
Proof.
  intros u w1 w2.
  assert (cb ∉ (listeners_of (atom_events a) w2).*2) as Hnot.
  { apply not_registered_after_remove. }
  split; [done|]. split.
  - intros fuel v w' Hrun. by eapply atom_set_not_registered.
  - apply removeEventListener_idemp.
Qed.

(** C5.  The event of a call of [set] is delivered only to listeners that
    were in the list when the call started.  A callback that was not
    registered then is not called for this event, even if a listener
    subscribes it during the pass, and the listener objects created during
    the call (their numbers start at [next_listener w]) are not called
    for it. *)
Theorem late_subscriber_not_notified fuel a v w w' :
  atom_set prog fuel a v w = Some w' →
  ∃ seg, trace w' = trace w ++ Stored (atom_cell a) v :: seg
    ∧ (∀ t l cb, Invoked t l cb [next_event w] ∈ seg →
         t = atom_events a ∧ (l, cb) ∈ listeners_of (atom_events a) w)
    ∧ (∀ cb, cb ∉ (listeners_of (atom_events a) w).*2 →
         deliveries (atom_events a) (next_event w) cb seg = 0)
    ∧ (wf w → ∀ t l cb, next_listener w ≤ l →
         Invoked t l cb [next_event w] ∉ seg).
Proof.
  intros Hrun.
  destruct (atom_set_scope _ _ _ _ _ Hrun) as (seg & E & O & _).
  exists seg. split; [done|]. split; [done|]. split.
  - intros cb Hnot. apply deliveries_none. intros l Hin.
    apply O in Hin as [_ Hin]. apply Hnot.
    apply list_elem_of_fmap. by exists (l, cb).
  - intros Hwf t l cb Hl Hin. apply O in Hin as [_ Hin].
    apply (wf_ids _ Hwf) in Hin. lia.
Qed.

(** ** Registering a callback twice *)

Lemma addEventListener_idemp t cb w :
  addEventListener t cb (addEventListener t cb w) = addEventListener t cb w.
Proof.
  destruct (targets w !! t) as [ls|] eqn:E.
  - destruct (decide (cb ∈ ls.*2)) as [Hin|Hnot].
    + assert (addEventListener t cb w = w) as Hw.
      { unfold addEventListener. by rewrite E, decide_True. }
      by rewrite !Hw.
    + assert (addEventListener t cb w
              = bump_listener
                  (set_targets (λ m, <[t := ls ++ [(next_listener w, cb)]]> m) w))
        as Hw.
      { unfold addEventListener. by rewrite E, decide_False. }
      rewrite Hw. unfold addEventListener. simpl. rewrite lookup_insert_eq.
      rewrite decide_True; [done|].
      rewrite fmap_app. apply elem_of_app. right. simpl. by left.
  - assert (addEventListener t cb w = w) as Hw.
    { unfold addEventListener. by rewrite E. }
    by rewrite !Hw.
Qed.

Lemma registered_after_add t cb w :
  is_Some (targets w !! t) →
  ∃ l, (l, cb) ∈ listeners_of t (addEventListener t cb w).
Proof.
  intros Hs. destruct (decide (cb ∈ (listeners_of t w).*2)) as [Hin|Hnot].
  - apply list_elem_of_fmap in Hin as ([l cb'] & -> & Hin).
    exists l. apply elem_of_listeners_add. by left.
  - exists (next_listener w). apply elem_of_listeners_add. right. done.
Qed.

(** C10.  Subscribing the same callback a second time changes nothing; a
    following [set] calls it once; and one call of either unsubscribe
    function (both are the same removal) takes it out of the list, so that
    a later [set] does not call it.  With listeners that do not call [set],
    these calls of [set] return. *)
Theorem duplicate_subscribe a n w :
  let w1 := (atom_subscribe a (CbUser n) w).2 in
  let u1 := (atom_subscribe a (CbUser n) w).1 in
  let w2 := (atom_subscribe a (CbUser n) w1).2 in
  let u2 := (atom_subscribe a (CbUser n) w1).1 in
  let w3 := call_unsubscribe u2 w2 in
  w2 = w1 ∧ u2 = u1
  ∧ (wf w → is_Some (targets w !! atom_events a) →
     unsubscribes prog (atom_events a) n = false →
     ∀ fuel v w', atom_set prog fuel a v w2 = Some w' →
       ∃ seg, trace w' = trace w2 ++ Stored (atom_cell a) v :: seg
         ∧ deliveries (atom_events a) (next_event w2) (CbUser n) seg = 1)
  ∧ CbUser n ∉ (listeners_of (atom_events a) w3).*2
  ∧ (∀ fuel v w', atom_set prog fuel a v w3 = Some w' →
       ∃ seg, trace w' = trace w3 ++ Stored (atom_cell a) v :: seg
         ∧ deliveries (atom_events a) (next_event w3) (CbUser n) seg = 0)
  ∧ (reentrant prog = false →
     ∀ fuel v, is_Some (atom_set prog (S fuel) a v w2)
               ∧ is_Some (atom_set prog (S fuel) a v w3)).
Proof.
  intros w1 u1 w2 u2 w3.
  assert (w2 = w1) as E21 by apply addEventListener_idemp.
  split; [done|]. split; [done|]. split; [|split; [|split]];
    [| | |by intros Hre fuel v; split; apply atom_set_total].
  - intros Hwf Hs HU fuel v w' Hrun. rewrite E21 in *.
    destruct (registered_after_add (atom_events a) (CbUser n) w Hs) as [l Hl].
    destruct (atom_set_scope _ _ _ _ _ Hrun) as (seg & E & _ & _ & C).
    exists seg. split; [done|].
    destruct (C (wf_add _ _ _ Hwf) (CbUser n)) as [_ Cone].
    apply (Cone l); [done|]. by left.
  - apply not_registered_after_remove.
  - intros fuel v w' Hrun.
    destruct (atom_set_not_registered fuel a v w3 w' (CbUser n)) as (seg & E & _ & D).
    + apply not_registered_after_remove.
    + done.
    + eauto.
Qed.

(** ** The invariants hold in every reachable world *)

Lemma wf_empty : wf (empty_world : world).
Proof.
  split.
  - intros t ls. simpl. by rewrite lookup_empty.
  - intros t l cb. unfold listeners_of. simpl. rewrite lookup_empty.
    by intros ?%not_elem_of_nil.
  - intros t l k g. unfold listeners_of. simpl. rewrite lookup_empty.
    by intros ?%not_elem_of_nil.
  - done.
Qed.

Lemma createAtom_listeners (v : T) events w t :
  listeners_of t (createAtom v events w).2 = listeners_of t w.
Proof.
  unfold createAtom. destruct events as [t0|]; [done|].
  unfold listeners_of. simpl.
  destruct (decide (t = fresh (dom (targets w)))) as [->|Hne].
  - rewrite lookup_insert_eq.
    assert (targets w !! fresh (dom (targets w)) = None) as ->; [|done].
    apply not_elem_of_dom, is_fresh.
  - by rewrite lookup_insert_ne.
Qed.

Lemma createAtom_wf (v : T) events w : wf w → wf (createAtom v events w).2.
Proof.
  intros [H1 H2 H3 H4].
  assert (next_listener (createAtom v events w).2 = next_listener w) as Hn.
  { unfold createAtom. by destruct events. }
  assert (the_fiber (createAtom v events w).2 = the_fiber w) as Hf.
  { unfold createAtom. by destruct events. }
  assert (next_closure (createAtom v events w).2 = next_closure w) as Hc.
  { unfold createAtom. by destruct events. }
  split.
  - intros t ls. unfold createAtom. destruct events as [t0|]; simpl.
    { apply H1. }
    destruct (decide (t = fresh (dom (targets w)))) as [->|Hne].
    + rewrite lookup_insert_eq. intros [= <-]. apply NoDup_nil_2.
    + rewrite lookup_insert_ne; [|done]. apply H1.
  - intros t l cb. rewrite createAtom_listeners, Hn. apply H2.
  - intros t l k g. rewrite createAtom_listeners, Hf. apply H3.
  - intros f u. rewrite Hf, Hc. apply H4.
Qed.

Lemma render_wf s g w x w' :
  useSyncExternalStoreShim s g w = Some (x, w') → wf w → wf w'.
Proof.
  unfold useSyncExternalStoreShim. intros Hr [H1 H2 H3 H4].
  destruct (useState_getSnapshot g w) as [y|]; [|done]. simpl in Hr.
  injection Hr as <- <-. split; simpl.
  - apply H1.
  - apply H2.
  - intros t l k g' Hin. destruct (H3 _ _ _ _ Hin) as (f & Hf & Hc & Hd).
    rewrite Hf. eexists. split; [done|]. done.
  - intros f' u Hf' Hc'. destruct (the_fiber w) as [f|] eqn:Hf.
    + injection Hf' as <-. simpl in Hc'. by eapply H4.
    + injection Hf' as <-. done.
Qed.

Lemma no_shim_after_cleanup w f :
  wf w → the_fiber w = Some f →
  ∀ t l k g,
    (l, CbShim k g) ∉
      listeners_of t (match f_cleanup f with
                      | Some u => call_unsubscribe u w
                      | None => w
                      end).
Proof.
  intros Hwf Hf t l k g Hin.
  destruct (f_cleanup f) as [u|] eqn:Hc.
  - unfold call_unsubscribe in Hin.
    apply elem_of_listeners_remove in Hin as [Hin Hnot].
    destruct (wf_shim _ Hwf _ _ _ _ Hin) as (f0 & Hf0 & Hc0 & _).
    apply Hnot. simpl. rewrite Hf in Hf0. injection Hf0 as <-.
    rewrite Hc in Hc0. injection Hc0 as ->. done.
  - destruct (wf_shim _ Hwf _ _ _ _ Hin) as (f0 & Hf0 & Hc0 & _).
    congruence.
Qed.

Lemma cleanup_lists w (f : fiber T) :
  wf w →
  let w1 := match f_cleanup f with
            | Some u => call_unsubscribe u w
            | None => w
            end in
  (∀ t ls, targets w1 !! t = Some ls → NoDup ls.*2)
  ∧ (∀ t l cb, (l, cb) ∈ listeners_of t w1 → l < next_listener w1)
  ∧ next_closure w1 = next_closure w ∧ the_fiber w1 = the_fiber w.
Proof.
  intros [H1 H2 H3 H4]. destruct (f_cleanup f) as [u|]; simpl.
  - unfold call_unsubscribe. split; [by apply nodup_remove|].
    split; [by apply ids_remove|].
    by rewrite next_closure_remove, fiber_remove.
  - done.
Qed.

Lemma commit_wf w : wf w → wf (commit_effect w).
Proof.
  intros Hwf. unfold commit_effect.
  destruct (the_fiber w) as [f|] eqn:Hf; [|done].
  case_decide as Hd; [done|].
  pose proof (no_shim_after_cleanup w f Hwf Hf) as Hno.
  destruct (cleanup_lists w f Hwf) as (N1 & I1 & C1 & F1).
  set (w1 := match f_cleanup f with
             | Some u => call_unsubscribe u w
             | None => w
             end) in *.
  unfold atom_subscribe. split; simpl.
  - apply (nodup_add _ _ (bump_closure w1)). apply N1.
  - apply (ids_add _ _ (bump_closure w1)). apply I1.
  - intros t l k g [Hin|(-> & _ & _ & [= -> -> ->])]%elem_of_listeners_add.
    + by apply Hno in Hin.
    + eexists. split; [done|]. simpl. split; [done|].
      exists (f_props f).1. by destruct (f_props f).
  - intros f' u [= <-] [= <-]. simpl. rewrite next_closure_add. simpl.
    eexists _, _. split; [done|]. lia.
Qed.

Lemma unmount_wf w : wf w → wf (unmount w).
Proof.
  intros Hwf. unfold unmount.
  destruct (the_fiber w) as [f|] eqn:Hf; [|done].
  pose proof (no_shim_after_cleanup w f Hwf Hf) as Hno.
  destruct (cleanup_lists w f Hwf) as (N1 & I1 & C1 & F1).
  split; simpl; [done|done| |done].
  intros t l k g Hin. by apply Hno in Hin.
Qed.

Lemma run_op_wf fuel o w w' : run_op prog fuel o w = Some w' → wf w → wf w'.
Proof.
  destruct o as [v events|act|s g| |]; simpl.
  - intros [= <-]. apply createAtom_wf.
  - destruct act as [a|a v|a n|a n|]; simpl.
    + intros [= <-]. by apply wf_frame.
    + destruct (atom_set prog fuel a v w) as [w1|] eqn:E; [|done].
      simpl. intros [= <-]. by eapply atom_set_wf.
    + intros [= <-]. apply wf_add.
    + intros [= <-]. by apply wf_remove.
    + by intros [= <-].
  - destruct (useSyncExternalStoreShim s g w) as [[x w1]|] eqn:E; [|done].
    simpl. intros [= <-]. by eapply render_wf.
  - intros [= <-]. apply commit_wf.
  - intros [= <-]. apply unmount_wf.
Qed.

Lemma run_wf fuel ops w w' : run prog fuel ops w = Some w' → wf w → wf w'.
Proof.
  revert w. induction ops as [|o ops IH]; intros w; simpl.
  - by intros [= <-].
  - destruct (run_op prog fuel o w) as [w1|] eqn:E; [|done]. simpl.
    intros Hrun Hwf. eapply IH; [done|]. by eapply run_op_wf.
Qed.

Lemma reachable_wf w : reachable prog w → wf w.
Proof. intros (fuel & ops & Hrun). eapply run_wf; [done|]. apply wf_empty. Qed.

Lemma nodup_snd_unique (ls : list listener) l l' cb :
  NoDup ls.*2 → (l, cb) ∈ ls → (l', cb) ∈ ls → l = l'.
Proof.
  induction ls as [|[l0 cb0] ls IH]; [by intros _ ?%not_elem_of_nil|].
  rewrite fmap_cons. intros [Hfresh Hnd]%NoDup_cons.
  intros [E1|H1]%elem_of_cons [E2|H2]%elem_of_cons.
  - congruence.
  - exfalso. apply Hfresh. apply list_elem_of_fmap. exists (l', cb).
    split; [by injection E1|done].
  - exfalso. apply Hfresh. apply list_elem_of_fmap. exists (l, cb).
    split; [by injection E2|done].
  - by apply IH.
Qed.

Lemma listeners_nodup t w : wf w → NoDup (listeners_of t w).*2.
Proof.
  intros Hwf. unfold listeners_of.
  destruct (targets w !! t) as [ls|] eqn:E; simpl.
  - by eapply wf_nodup.
  - apply NoDup_nil_2.
Qed.

Lemma commit_registers w f :
  the_fiber w = Some f → f_deps f ≠ Some (f_props f) →
  is_Some (targets w !! atom_events (f_props f).1) →
  ∃ l f',
    (l, CbShim (next_closure w) (f_props f).2)
      ∈ listeners_of (atom_events (f_props f).1) (commit_effect w)
    ∧ the_fiber (commit_effect w) = Some f'
    ∧ f_cleanup f'
      = Some (MkUnsub (atom_events (f_props f).1)
                      (CbShim (next_closure w) (f_props f).2))
    ∧ f_deps f' = Some (f_props f).
Proof.
  intros Hf Hd Hs. unfold commit_effect. rewrite Hf.
  rewrite decide_False by done.
  set (w1 := match f_cleanup f with
             | Some u => call_unsubscribe u w
             | None => w
             end).
  assert (next_closure w1 = next_closure w) as ->.
  { unfold w1. destruct (f_cleanup f) as [u|]; [|done].
    apply next_closure_remove. }
  assert (is_Some (targets w1 !! atom_events (f_props f).1)) as Hs1.
  { unfold w1. destruct (f_cleanup f) as [u|]; [|done].
    by apply targets_remove_some. }
  unfold atom_subscribe. simpl.
  set (cb := CbShim (next_closure w) (f_props f).2).
  destruct (registered_after_add (atom_events (f_props f).1) cb (bump_closure w1))
    as [l Hl]; [exact Hs1|].
  exists l. eexists. split; [exact Hl|]. split; [reflexivity|]. done.
Qed.

Lemma commit_unchanged w f :
  the_fiber w = Some f → f_deps f = Some (f_props f) → commit_effect w = w.
Proof.
  intros Hf Hd. unfold commit_effect. rewrite Hf. by rewrite decide_True.
Qed.

(** C9.  In every world the program can reach, the callbacks of the shim
    that are registered anywhere are at most one, and that one is what the
    cleanup of the committed effect removes.  Tearing the element down leaves
    none registered.  When an argument changed its identity, the commit
    removes the previous callback, and what is registered afterwards is the
    newly allocated one.  The commit does register: on the mount and after
    a change of an argument a new callback is in the listener list of the
    atom whose [subscribe] was passed, and it is what the next cleanup
    removes; with unchanged arguments the commit does nothing. *)
Theorem shim_single_subscription w :
  reachable prog w →
  (∀ t t' l l' k k' g g',
     (l, CbShim k g) ∈ listeners_of t w →
     (l', CbShim k' g') ∈ listeners_of t' w →
     t = t' ∧ l = l' ∧ k = k' ∧ g = g')
  ∧ (∀ t l k g, (l, CbShim k g) ∈ listeners_of t w →
       ∃ f, the_fiber w = Some f
            ∧ f_cleanup f = Some (MkUnsub t (CbShim k g)))
  ∧ (∀ t l k g, (l, CbShim k g) ∉ listeners_of t (unmount w))
  ∧ (∀ f u, the_fiber w = Some f → f_cleanup f = Some u →
       f_deps f ≠ Some (f_props f) →
       (∀ t, unsub_cb u ∉ (listeners_of t (commit_effect w)).*2)
       ∧ ∀ t l k g, (l, CbShim k g) ∈ listeners_of t (commit_effect w) →
           t = atom_events (f_props f).1 ∧ k = next_closure w
           ∧ g = (f_props f).2)
  ∧ (∀ f, the_fiber w = Some f → f_deps f ≠ Some (f_props f) →
       is_Some (targets w !! atom_events (f_props f).1) →
       ∃ l f',
         (l, CbShim (next_closure w) (f_props f).2)
           ∈ listeners_of (atom_events (f_props f).1) (commit_effect w)
         ∧ the_fiber (commit_effect w) = Some f'
         ∧ f_cleanup f'
           = Some (MkUnsub (atom_events (f_props f).1)
                           (CbShim (next_closure w) (f_props f).2))
         ∧ f_deps f' = Some (f_props f))
  ∧ (∀ f, the_fiber w = Some f → f_deps f = Some (f_props f) →
       commit_effect w = w).
Proof.
  intros Hwf%reachable_wf. split; [|split; [|split; [|split; [|split]]]];
    [| | | |exact (commit_registers w)|exact (commit_unchanged w)].
  - intros t t' l l' k k' g g' Hin Hin'.
    destruct (wf_shim _ Hwf _ _ _ _ Hin) as (f & Hf & Hc & _).
    destruct (wf_shim _ Hwf _ _ _ _ Hin') as (f' & Hf' & Hc' & _).
    rewrite Hf in Hf'. injection Hf' as <-. rewrite Hc in Hc'.
    injection Hc' as <- <- <-. split; [done|]. split; [|done].
    eapply nodup_snd_unique; [|exact Hin|exact Hin'].
    by apply listeners_nodup.
  - intros t l k g Hin.
    destruct (wf_shim _ Hwf _ _ _ _ Hin) as (f & Hf & Hc & _). eauto.
  - intros t l k g Hin. pose proof (unmount_wf w Hwf) as Hwf'.
    destruct (wf_shim _ Hwf' _ _ _ _ Hin) as (f & Hf & _).
    unfold unmount in Hf.
    destruct (the_fiber w) eqn:E; simpl in Hf; congruence.
  - intros f u Hf Hc Hd.
    destruct (wf_cleanup _ Hwf f u Hf Hc) as (k0 & g0 & Hu & Hk0).
    pose proof (commit_wf w Hwf) as Hwf'.
    assert (∀ t l k g, (l, CbShim k g) ∈ listeners_of t (commit_effect w) →
              t = atom_events (f_props f).1 ∧ k = next_closure w
              ∧ g = (f_props f).2) as Hnew.
    { intros t l k g Hin.
      destruct (wf_shim _ Hwf' _ _ _ _ Hin) as (f' & Hf' & Hc' & _).
      revert Hf' Hc'. unfold commit_effect. rewrite Hf.
      rewrite decide_False; [|done]. unfold atom_subscribe. simpl.
      intros [= <-]. simpl. rewrite Hc. unfold call_unsubscribe.
      rewrite next_closure_remove. by intros [= -> -> ->]. }
    split; [|done].
    intros t ([l cb] & Hcb & Hin)%list_elem_of_fmap. simpl in Hcb. subst cb.
    rewrite Hu in Hin. apply Hnew in Hin as (_ & -> & _). lia.
Qed.

(** ** The fiber during a notification pass *)

Lemma notify_fiber a v w f :
  the_fiber w = Some f → atom_get a w = Some v →
  the_fiber (setSnapshot_getSnapshot a w) = Some (enqueue a v f).
Proof.
  intros Hf Hv. unfold setSnapshot_getSnapshot, enqueue. rewrite Hf, Hv.
  destruct (f_queue f) eqn:Q; [|done].
  destruct (f_lanes f || alternate_lanes f); [done|].
  case_decide; simpl; [done|done].
Qed.

Lemma atom_get_notify a g w :
  atom_get a (setSnapshot_getSnapshot g w) = atom_get a w.
Proof. unfold atom_get. by rewrite cells_notify. Qed.

Section FiberInvariants.

Variables (a : Atom) (v : T).
Hypothesis quiet : sets_cell prog (atom_cell a) = false.

Lemma stable_shim t l k g w :
  stable a v w → (l, CbShim k g) ∈ listeners_of t w → g = a.
Proof.
  intros (Hwf & _ & f & s & Hf & Hd) Hin.
  destruct (wf_shim _ Hwf _ _ _ _ Hin) as (f' & Hf' & _ & s' & Hd').
  congruence.
Qed.

Lemma steps_stable lo w w' :
  steps Wp Up lo w w' → stable a v w → stable a v w'.
Proof.
  intros Hs (Hwf & Hv & f & s & Hf & Hd).
  pose proof (steps_ext _ _ _ _ _ Hs) as Hext.
  split; [by eapply steps_wf|]. split.
  - unfold atom_get. rewrite (ext_cells _ _ _ _ _ Hext); [done|congruence].
  - pose proof (ext_fiber _ _ _ _ _ Hext) as F. rewrite Hf in F.
    destruct F as (f' & Hf' & _ & _ & Hd' & _). exists f', s.
    split; [done|congruence].
Qed.

Lemma prim_fiber (I : fiber T → Prop) W U lo w w' :
  (∀ f, I f → I (enqueue a v f)) →
  prim W U lo w w' → stable a v w → holds I w → holds I w'.
Proof.
  intros HI Hp Hst (f & Hf & If). destruct Hp; try (by exists f).
  - exists f. by rewrite fiber_add.
  - exists f. by rewrite fiber_remove.
  - assert (g = a) as -> by (by eapply stable_shim).
    exists (enqueue a v f). split; [|by apply HI].
    apply notify_fiber; [done|]. apply Hst.
Qed.

Lemma steps_fiber (I : fiber T → Prop) lo w w' :
  (∀ f, I f → I (enqueue a v f)) →
  steps Wp Up lo w w' → stable a v w → holds I w → holds I w'.
Proof.
  intros HI Hs. induction Hs as [|w1 w2 w3 H12 H23 IH]; [done|].
  intros Hst Hh. apply IH.
  - eapply steps_stable; [|done]. by apply rtc_once.
  - by eapply prim_fiber.
Qed.

(** When the shim's callback is in the clone and still registered, the
    pass takes a fiber that satisfies [I1] to one that satisfies [I2]. *)
Lemma pass_fiber (I1 I2 : fiber T → Prop) fuel t e clone w w' :
  (∀ f, I1 f → I1 (enqueue a v f)) →
  (∀ f, I2 f → I2 (enqueue a v f)) →
  (∀ f, I1 f → I2 (enqueue a v f)) →
  e < next_event w →
  inner_invoke prog (atom_set prog fuel) t e clone w = Some w' →
  stable a v w → holds I1 w →
  (holds I2 w
   ∨ ∃ l k g, (l, CbShim k g) ∈ clone ∧ (l, CbShim k g) ∈ listeners_of t w) →
  stable a v w' ∧ holds I1 w' ∧ holds I2 w'.
Proof.
  intros H11 H22 H12. revert w.
  induction clone as [|[l0 cb0] rest IH]; intros w He Hrun Hst H1 H2.
  { simpl in Hrun. injection Hrun as <-.
    destruct H2 as [H2|(l & k & g & []%not_elem_of_nil & _)]. done. }
  simpl in Hrun. case_decide as Hpresent.
  - destruct (invoke_callback prog (atom_set prog fuel) cb0
                (log (Invoked t l0 cb0 [e]) w)) as [w1|] eqn:E; [|done].
    simpl in Hrun.
    set (w0 := log (Invoked t l0 cb0 [e]) w) in *.
    assert (steps Wp Up e w w0) as S0.
    { apply rtc_once. by apply prim_invoke. }
    assert (steps Wp Up e w0 w1) as S1.
    { eapply (invoke_callback_steps (atom_set prog fuel)).
      - intros a' v' w2 w2' lo'. apply (atom_set_steps fuel).
      - unfold w0. rewrite listeners_of_log. exact Hpresent.
      - unfold w0. simpl. lia.
      - exact E. }
    assert (steps Wp Up e w w1) as S01 by (by etrans).
    pose proof (steps_stable _ _ _ S01 Hst) as Hst1.
    pose proof (steps_fiber I1 _ _ _ H11 S01 Hst H1) as H1'.
    pose proof (steps_next_event _ _ _ _ _ S01) as Hne.
    apply (IH w1); [lia|done|done|done|].
    destruct cb0 as [n|k g].
    + destruct H2 as [H2|(l & k & g & Hin & Hreg)].
      * left. by eapply steps_fiber.
      * right. exists l, k, g.
        apply elem_of_cons in Hin as [[=]|Hin]. split; [done|].
        eapply (ext_keep _ _ _ _ _ (steps_ext _ _ _ _ _ S01)); [done|].
        by intros n' [=].
    + left. simpl in E. injection E as <-.
      assert (g = a) as ->.
      { eapply stable_shim; [exact Hst|exact Hpresent]. }
      pose proof (steps_stable _ _ _ S0 Hst) as Hst0.
      pose proof (steps_fiber I1 _ _ _ H11 S0 Hst H1) as (f0 & Hf0 & If0).
      exists (enqueue a v f0). split; [|by apply H12].
      apply notify_fiber; [done|]. apply Hst0.
  - apply (IH w); [done..|].
    destruct H2 as [H2|(l & k & g & Hin & Hreg)]; [by left|].
    right. exists l, k, g.
    apply elem_of_cons in Hin as [E0|Hin]; [|done].
    exfalso. apply Hpresent. by rewrite <- E0.
Qed.

Lemma stable_committed w :
  wf w → (∃ f s, the_fiber w = Some f ∧ f_deps f = Some (s, a)) →
  stable a v (committed a v w).
Proof.
  intros Hwf Hf. split; [by apply wf_committed|]. split; [|done].
  unfold atom_get. simpl. apply lookup_insert_eq.
Qed.

(** A call of [set(v)] on the atom the element is subscribed to. *)
Lemma atom_set_fiber (I1 I2 : fiber T → Prop) fuel w w' :
  (∀ f, I1 f → I1 (enqueue a v f)) →
  (∀ f, I2 f → I2 (enqueue a v f)) →
  (∀ f, I1 f → I2 (enqueue a v f)) →
  wf w → subscribed a w → holds I1 w →
  atom_set prog fuel a v w = Some w' →
  stable a v w' ∧ holds I1 w' ∧ holds I2 w'.
Proof.
  intros H11 H22 H12 Hwf [Hv (f & k & l & Hf & Hp & Hd & Hc & Hin)] H1 Hrun.
  destruct fuel as [|fuel]; [done|]. rewrite atom_set_unfold in Hrun.
  eapply (pass_fiber I1 I2); [done|done|done| |exact Hrun| | |].
  - simpl. lia.
  - apply stable_committed; [done|]. eauto.
  - done.
  - right. exists l, k, a. done.
Qed.

End FiberInvariants.

(** ** What [setSnapshot(getSnapshot)] does to the fiber *)

(** What a call of [setSnapshot(getSnapshot)] does: nothing, on a fiber
    without pending work that holds the state found; else it schedules. *)
Lemma enqueue_cases a v (f : fiber T) :
  (enqueue a v f = f ∧ f_queue f = [] ∧ f_lanes f = false
   ∧ alternate_lanes f = false ∧ v = f_state f)
  ∨ (∃ u, enqueue a v f = schedule u f
          ∧ (f_queue f ≠ [] ∨ f_lanes f = true ∨ alternate_lanes f = true
             ∨ v ≠ f_state f)
          ∧ match upd_eager u with
            | Some y => y = v
            | None => upd_action u = a
            end).
Proof.
  unfold enqueue. destruct (f_queue f) as [|u q] eqn:Q.
  - destruct (f_lanes f) eqn:L; simpl.
    { right. eexists. split; [done|]. split; [|done]. right. by left. }
    destruct (alternate_lanes f) eqn:A; simpl.
    { right. eexists. split; [done|]. split; [|done]. right. right. by left. }
    case_decide as Hv.
    + left. done.
    + right. eexists. split; [done|]. split; [|done]. by do 3 right.
  - right. eexists. split; [done|]. split; [|done]. by left.
Qed.

Lemma enqueue_state a v (f : fiber T) : f_state (enqueue a v f) = f_state f.
Proof. by destruct (enqueue_cases a v f) as [(-> & _)|(u & -> & _)]. Qed.

Lemma enqueue_fields a v (f : fiber T) :
  f_props (enqueue a v f) = f_props f ∧ f_renders (enqueue a v f) = f_renders f.
Proof. by destruct (enqueue_cases a v f) as [(-> & _)|(u & -> & _)]. Qed.

Lemma scheduled_schedule u (f : fiber T) :
  f_lanes (schedule u f) = true ∧ f_queue (schedule u f) ≠ []
  ∧ scheduled (schedule u f) = true.
Proof.
  unfold scheduled. simpl. split; [done|]. split; [|done].
  by destruct (f_queue f).
Qed.

Lemma scheduled_true (f : fiber T) :
  scheduled f = true ↔ f_lanes f = true ∨ f_queue f ≠ [].
Proof.
  unfold scheduled. rewrite orb_true_iff, bool_decide_eq_true. done.
Qed.

Lemma enqueue_scheduled a v (f : fiber T) :
  scheduled (enqueue a v f) = true
  ↔ scheduled f = true ∨ alternate_lanes f = true ∨ v ≠ f_state f.
Proof.
  destruct (enqueue_cases a v f) as [(-> & Q & L & A & Hv)|(u & -> & C & _)].
  - rewrite scheduled_true, Q, L, A. naive_solver.
  - split; [|intros _; apply scheduled_schedule].
    intros _. rewrite scheduled_true. naive_solver.
Qed.

Lemma enqueue_renders_to a v (f : fiber T) : renders_to a v (enqueue a v f).
Proof.
  destruct (enqueue_cases a v f) as [(-> & Q & _ & _ & Hv)|(u & -> & _ & Hu)].
  - unfold renders_to. by rewrite Q.
  - unfold renders_to, schedule. simpl. by rewrite last_snoc.
Qed.

(** ** Rendering *)

Lemma render_result s a v w f :
  the_fiber w = Some f → atom_get a w = Some v → renders_to a v f →
  useSyncExternalStoreShim s a w
  = Some (v, set_fiber (Some (MkFiber v [] (s, a) (f_deps f) (f_cleanup f)
                                      (S (f_renders f)) false
                                      (Some (f_lanes f
                                             && negb (bails_out v s a f))))) w).
Proof.
  intros Hf Hv Hr. unfold useSyncExternalStoreShim, useState_getSnapshot.
  rewrite Hf. simpl.
  assert (foldl (apply_update w) (f_state f) (f_queue f) = v) as ->; [|done].
  unfold renders_to in Hr. destruct (last (f_queue f)) as [u|] eqn:L.
  - apply last_Some in L as [q ->]. rewrite foldl_app. simpl.
    unfold apply_update at 1. destruct (upd_eager u); [done|].
    by rewrite Hr, Hv.
  - apply last_None in L. by rewrite L.
Qed.



Lemma atom_set_subscribed fuel a v w w' :
  subscribed a w → atom_set prog fuel a v w = Some w' → subscribed a w'.
Proof.
  intros [Hv (f & k & l & Hf & Hp & Hd & Hc & Hin)] Hrun.
  pose proof (atom_set_ext fuel a v w w' 0 ltac:(lia) Hrun) as Hext.
  split.
  - apply (ext_alloc _ _ _ _ _ Hext). unfold atom_get. simpl.
    rewrite lookup_insert_eq. eauto.
  - pose proof (ext_fiber _ _ _ _ _ Hext) as F. simpl in F. rewrite Hf in F.
    destruct F as (f' & Hf' & _ & Hp' & Hd' & Hc' & _).
    exists f', k, l. split; [done|]. split; [congruence|].
    split; [congruence|]. split; [congruence|].
    apply (ext_keep _ _ _ _ _ Hext); [done|]. by intros n [=].
Qed.







(** ** Re-rendering *)

Lemma renders_flush w f :
  the_fiber w = Some f → f_deps f = Some (f_props f) →
  renders (flush w) = if render_scheduled w then S (f_renders f) else f_renders f.
Proof.
  intros Hf Hd. unfold flush, renders. rewrite Hf.
  destruct (render_scheduled w) eqn:Hs; [|by rewrite Hf].
  unfold useSyncExternalStoreShim, useState_getSnapshot. rewrite Hf. simpl.
  unfold commit_effect. simpl. rewrite decide_True; [done|].
  rewrite Hd. by destruct (f_props f).
Qed.

(** The world after React worked off what was scheduled, for an element
    whose effect is committed with the arguments of the last evaluation. *)
Lemma flush_result a v w f :
  the_fiber w = Some f → f_props f = (a, a) → f_deps f = Some (a, a) →
  atom_get a w = Some v → renders_to a v f →
  flush w
  = if render_scheduled w
    then set_fiber (Some (MkFiber v [] (a, a) (f_deps f) (f_cleanup f)
                            (S (f_renders f)) false
                            (Some (f_lanes f && negb (bails_out v a a f))))) w
    else w.
Proof.
  intros Hf Hp Hd Hv Hr. unfold flush. rewrite Hf.
  destruct (render_scheduled w); [|done]. rewrite Hp. simpl.
  rewrite (render_result a a v w f Hf Hv Hr).
  unfold commit_effect. simpl. by rewrite Hd, decide_True.
Qed.

Lemma flush_wf w : wf w → wf (flush w).
Proof.
  intros Hwf. unfold flush. destruct (the_fiber w) as [f|]; [|done].
  destruct (render_scheduled w); [|done].
  destruct (useSyncExternalStoreShim _ _ w) as [[x w1]|] eqn:E; [|done].
  apply commit_wf. by eapply render_wf.
Qed.

(** C8, as amended.  A call of [set(v)] on the atom the element is
    subscribed to notifies the shim's callback once, and the callback calls
    [setSnapshot(getSnapshot)] without any comparison of its own.  Whether
    the element is evaluated again is decided by [useState].  A render is
    scheduled afterwards exactly when work was scheduled on the element
    before, or the lanes of the alternate fiber are marked, or [v] differs
    from the state the hook holds: only with no work pending and a snapshot
    equal to the state nothing is scheduled, and the element is not
    evaluated again.  When React has worked off what was scheduled (on an
    element whose lanes are marked by the updates of the hook only) the hook
    holds [v], and the lanes of the alternate are marked exactly when [v]
    differed from the state: after an update that changed the state, the
    next notification has the element evaluated once more even for an equal
    snapshot; after an evaluation that changed nothing, an equal snapshot is
    skipped.  With listeners that do not call [set], the call returns. *)
Theorem rerender_iff_changed fuel a v w w' f :
  wf w → subscribed a w → sets_cell prog (atom_cell a) = false →
  the_fiber w = Some f →
  atom_set prog fuel a v w = Some w' →
  (∃ seg k, trace w' = trace w ++ Stored (atom_cell a) v :: seg
     ∧ f_cleanup f = Some (MkUnsub (atom_events a) (CbShim k a))
     ∧ deliveries (atom_events a) (next_event w) (CbShim k a) seg = 1)
  ∧ (render_scheduled w' = true
     ↔ render_scheduled w = true ∨ alternate_lanes f = true ∨ v ≠ f_state f)
  ∧ ((f_lanes f = true → f_queue f ≠ []) →
     renders (flush w')
     = (if render_scheduled w' then S (renders w) else renders w)
     ∧ wf (flush w') ∧ subscribed a (flush w')
     ∧ render_scheduled (flush w') = false
     ∧ ∃ f', the_fiber (flush w') = Some f'
         ∧ f_state f' = v
         ∧ alternate_lanes f' = bool_decide (v ≠ f_state f))
  ∧ (reentrant prog = false → is_Some (atom_set prog (S fuel) a v w)).
Proof.
  intros Hwf Hsub Hq Hf Hrun.
  set (R := scheduled f = true ∨ alternate_lanes f = true ∨ v ≠ f_state f).
  set (I1 := λ f' : fiber T,
         f_state f' = f_state f ∧ f_props f' = f_props f
         ∧ f_renders f' = f_renders f
         ∧ (f' = f ∨ (f_lanes f' = true ∧ R))).
  set (I2 := λ f' : fiber T,
         renders_to a v f'
         ∧ ((f' = f ∧ f_queue f = [] ∧ f_lanes f = false
             ∧ alternate_lanes f = false ∧ v = f_state f)
            ∨ (f_lanes f' = true ∧ R))).
  assert (∀ f', f' = f ∨ (f_lanes f' = true ∧ R) →
            (enqueue a v f' = f' ∧ f_queue f' = [] ∧ f_lanes f' = false
             ∧ alternate_lanes f' = false ∧ v = f_state f')
            ∨ (f_lanes (enqueue a v f') = true ∧ R)) as Hstep.
  { intros f' Hd.
    destruct (enqueue_cases a v f') as [C|(u & -> & C & _)]; [by left|].
    right. split; [apply scheduled_schedule|].
    destruct Hd as [->|[_ HR]]; [|done].
    unfold R. rewrite scheduled_true. naive_solver. }
  destruct (atom_set_fiber a v Hq I1 I2 fuel w w')
    as (_ & (f1 & Hf1 & S1 & P1 & N1 & D1) & (f2 & Hf2 & R2 & D2)); try done.
  { intros f' (S' & P' & N' & D'). unfold I1.
    rewrite enqueue_state. destruct (enqueue_fields a v f') as [-> ->].
    split; [done|]. split; [done|]. split; [done|].
    destruct (Hstep f' D') as [(-> & _)|?]; [done|by right]. }
  { intros f' (_ & D'). split; [apply enqueue_renders_to|].
    assert (f' = f ∨ (f_lanes f' = true ∧ R)) as D'' by naive_solver.
    destruct (Hstep f' D'') as [(-> & _)|?]; [done|by right]. }
  { intros f' (_ & _ & _ & D'). split; [apply enqueue_renders_to|].
    destruct (Hstep f' D') as [(-> & Q' & L' & A' & V')|?]; [|by right].
    destruct D' as [->|[L'' _]]; [by left|congruence]. }
  { exists f. split; [done|]. unfold I1. tauto. }
  rewrite Hf1 in Hf2. injection Hf2 as <-.
  pose proof (atom_set_subscribed _ _ _ _ _ Hsub Hrun) as Hsub'.
  pose proof (atom_set_wf _ _ _ _ _ Hrun Hwf) as Hwf'.
  pose proof (atom_set_get _ _ _ _ _ Hq Hrun) as Hv'.
  destruct Hsub as [Hv (f0 & k & l & Hf0 & Hp & Hd & Hc & Hin)].
  rewrite Hf in Hf0. injection Hf0 as <-.
  pose proof (atom_set_ext fuel a v w w' 0 ltac:(lia) Hrun) as Hext.
  pose proof (ext_fiber _ _ _ _ _ Hext) as F. simpl in F. rewrite Hf in F.
  destruct F as (f' & Hf' & _ & Hp' & Hd' & Hc' & _).
  rewrite Hf1 in Hf'. injection Hf' as <-.
  assert (render_scheduled w' = true ↔ R) as Hiff.
  { unfold render_scheduled. rewrite Hf1.
    destruct D2 as [(-> & Q & L & A & V)|[L HR]].
    - unfold R. rewrite scheduled_true, Q, L, A. naive_solver.
    - rewrite scheduled_true. naive_solver. }
  split; [|split; [|split]].
  - destruct (atom_set_scope _ _ _ _ _ Hrun) as (seg & E & _ & _ & C).
    exists seg, k. split; [done|]. split; [done|].
    destruct (C Hwf (CbShim k a)) as [_ Cone]. apply (Cone l); [done|]. by left.
  - rewrite Hiff. unfold R, render_scheduled. by rewrite Hf.
  - intros _.
    assert (flush w'
            = if render_scheduled w'
              then set_fiber
                     (Some (MkFiber v [] (a, a) (f_deps f1) (f_cleanup f1)
                              (S (f_renders f1)) false
                              (Some (f_lanes f1 && negb (bails_out v a a f1)))))
                     w'
              else w') as Hfl.
    { apply flush_result; [done|congruence|congruence|done|done]. }
    split; [|split; [by apply flush_wf|]].
    { rewrite (renders_flush w' f1 Hf1); [|congruence].
      unfold renders at 1 2. by rewrite Hf, N1. }
    rewrite Hfl. destruct (render_scheduled w') eqn:Hs.
    + assert (f_lanes f1 = true) as L1.
      { destruct D2 as [(-> & Q & L & A & V)|[L _]]; [|done].
        unfold render_scheduled in Hs. rewrite Hf1 in Hs.
        apply scheduled_true in Hs. naive_solver. }
      split; [|split; [done|]].
      * destruct Hsub' as [Hva (fs & ks & ls & Hfs & Hps & Hds & Hcs & Hins)].
        rewrite Hf1 in Hfs. injection Hfs as <-.
        split; [done|]. eexists _, ks, ls. split; [done|]. simpl. done.
      * eexists. split; [done|]. simpl. split; [done|].
        rewrite L1. unfold bails_out. simpl.
        rewrite Hp', Hp, S1.
        destruct (decide (v = f_state f)) as [E|E].
        -- rewrite bool_decide_eq_true_2 by done.
           by rewrite bool_decide_eq_false_2 by (by intros ?).
        -- rewrite bool_decide_eq_false_2 by (by intros [? _]).
           by rewrite bool_decide_eq_true_2.
    + split; [done|]. split; [done|].
      destruct D2 as [(-> & Q & L & A & V)|[L HR]].
      * exists f. split; [done|]. split; [done|]. rewrite A.
        by rewrite bool_decide_eq_false_2 by (by intros ?).
      * apply Hiff in HR. congruence.
  - intros Hre. by apply atom_set_total.
Qed.

End Facts.

(** * Facts about [delayed] *)

Section TimerFacts.

Context {T : Type}.

Implicit Types (l : loop T) (tm : timer T) (p : nat) (d : Z).

Lemma resolve_now l p (v : T) : now (resolve l p v) = now l.
Proof. done. Qed.

Lemma resolve_timers l p (v : T) : timers (resolve l p v) = timers l.
Proof. done. Qed.

Lemma resolve_other l p p' (v : T) :
  p' ≠ p →
  promise_of p (resolve l p' v) = promise_of p l
  ∧ resolutions p (resolve l p' v) = resolutions p l.
Proof.
  intros Hne. unfold promise_of, resolutions, resolve. simpl. split.
  - destruct (promises l !! p') as [[| |]|]; try done.
    by rewrite list_lookup_insert_ne.
  - rewrite filter_app, length_app. simpl.
    rewrite filter_cons_False; [|simpl; congruence].
    simpl. lia.
Qed.

Lemma resolve_same l p (v : T) :
  promise_of p (resolve l p v)
  = match promise_of p l with
    | Some Pending => Some (Fulfilled v)
    | st => st
    end
  ∧ resolutions p (resolve l p v) = S (resolutions p l).
Proof.
  unfold promise_of, resolutions, resolve. simpl. split.
  - destruct (promises l !! p) as [[| |]|] eqn:E; try done.
    apply list_lookup_insert_eq. by eapply lookup_lt_Some.
  - rewrite filter_app, length_app. simpl.
    rewrite filter_cons_True; [|done]. simpl. lia.
Qed.

(** What running a list of due timers does to the promise [p]. *)
Lemma run_timers_promise p (fired : list (timer T)) l :
  let l' := foldl (λ l0 tm, resolve l0 (tm_promise tm) (tm_arg tm)) l fired in
  now l' = now l ∧ timers l' = timers l
  ∧ resolutions p l'
    = resolutions p l + length (filter (λ tm, tm_promise tm = p) fired)
  ∧ promise_of p l'
    = match promise_of p l, filter (λ tm, tm_promise tm = p) fired with
      | Some Pending, tm :: _ => Some (Fulfilled (tm_arg tm))
      | st, _ => st
      end.
Proof.
  revert l. induction fired as [|tm fired IH]; intros l; simpl.
  { split; [done|]. split; [done|]. split; [lia|].
    by destruct (promise_of p l) as [[| |]|]. }
  destruct (IH (resolve l (tm_promise tm) (tm_arg tm))) as (N & Tm & R & P).
  split; [by rewrite N|]. split; [by rewrite Tm|].
  rewrite R, P. rewrite filter_cons.
  destruct (decide (tm_promise tm = p)) as [E|Hne].
  - rewrite E. destruct (resolve_same l p (tm_arg tm)) as [-> ->].
    simpl. split; [lia|].
    by destruct (promise_of p l) as [[| |]|].
  - destruct (resolve_other l p (tm_promise tm) (tm_arg tm) Hne) as [-> ->].
    done.
Qed.

Lemma filter_comm {A} (P Q : A → Prop) `{!∀ x, Decision (P x)}
    `{!∀ x, Decision (Q x)} (ls : list A) :
  filter P (filter Q ls) = filter Q (filter P ls).
Proof.
  rewrite !list_filter_filter. apply list_filter_iff. intros x. tauto.
Qed.

Lemma elapse_now l d : now (elapse l d) = (now l + Z.max 0 d)%Z.
Proof.
  unfold elapse.
  by destruct (run_timers_promise 0
    (filter (λ tm, (tm_due tm ≤ now l + Z.max 0 d)%Z) (timers l))
    (MkLoop (now l + Z.max 0 d) (promises l)
       (filter (λ tm, (now l + Z.max 0 d < tm_due tm)%Z) (timers l))
       (resolve_calls l))) as (-> & _).
Qed.

(** The three cases of a step of the clock. *)
Lemma elapse_awaiting p tm l d :
  awaiting p tm l → (now l + Z.max 0 d < tm_due tm)%Z →
  awaiting p tm (elapse l d).
Proof.
  intros (P & F & R & N) Hd. unfold elapse.
  set (t := (now l + Z.max 0 d)%Z) in *.
  set (l0 := MkLoop t (promises l) (filter (λ tm, (t < tm_due tm)%Z) (timers l))
                    (resolve_calls l)).
  destruct (run_timers_promise p
              (filter (λ tm, (tm_due tm ≤ t)%Z) (timers l)) l0)
    as (N' & T' & R' & P').
  assert (filter (λ tm', tm_promise tm' = p)
            (filter (λ tm, (tm_due tm ≤ t)%Z) (timers l)) = []) as E.
  { rewrite filter_comm, F. rewrite filter_cons_False; [done|]. lia. }
  rewrite E in R', P'. split; [|split; [|split]].
  - rewrite P'. change (promise_of p l0) with (promise_of p l). by rewrite P.
  - rewrite T'. simpl. rewrite filter_comm, F.
    rewrite filter_cons_True; [done|]. done.
  - rewrite R'. change (resolutions p l0) with (resolutions p l). simpl. lia.
  - rewrite N'. done.
Qed.

Lemma elapse_fires p tm l d :
  awaiting p tm l → (tm_due tm ≤ now l + Z.max 0 d)%Z →
  settled p (tm_arg tm) (elapse l d).
Proof.
  intros (P & F & R & N) Hd. unfold elapse.
  set (t := (now l + Z.max 0 d)%Z) in *.
  set (l0 := MkLoop t (promises l) (filter (λ tm, (t < tm_due tm)%Z) (timers l))
                    (resolve_calls l)).
  destruct (run_timers_promise p
              (filter (λ tm, (tm_due tm ≤ t)%Z) (timers l)) l0)
    as (N' & T' & R' & P').
  assert (filter (λ tm', tm_promise tm' = p)
            (filter (λ tm, (tm_due tm ≤ t)%Z) (timers l)) = [tm]) as E.
  { rewrite filter_comm, F. rewrite filter_cons_True; [done|]. done. }
  rewrite E in R', P'. split; [|split].
  - rewrite P'. change (promise_of p l0) with (promise_of p l). by rewrite P.
  - rewrite T'. simpl. rewrite filter_comm, F.
    rewrite filter_cons_False; [done|]. lia.
  - rewrite R'. change (resolutions p l0) with (resolutions p l). simpl. lia.
Qed.

Lemma elapse_settled p (v : T) l d : settled p v l → settled p v (elapse l d).
Proof.
  intros (P & F & R). unfold elapse.
  set (t := (now l + Z.max 0 d)%Z) in *.
  set (l0 := MkLoop t (promises l) (filter (λ tm, (t < tm_due tm)%Z) (timers l))
                    (resolve_calls l)).
  destruct (run_timers_promise p
              (filter (λ tm, (tm_due tm ≤ t)%Z) (timers l)) l0)
    as (N' & T' & R' & P').
  assert (filter (λ tm', tm_promise tm' = p)
            (filter (λ tm, (tm_due tm ≤ t)%Z) (timers l)) = []) as E.
  { by rewrite filter_comm, F. }
  rewrite E in R', P'. split; [|split].
  - rewrite P'. change (promise_of p l0) with (promise_of p l). by rewrite P.
  - rewrite T'. simpl. by rewrite filter_comm, F.
  - rewrite R'. change (resolutions p l0) with (resolutions p l). simpl. lia.
Qed.

Lemma elapse_all_settled p (v : T) l ds :
  settled p v l → settled p v (elapse_all l ds).
Proof.
  revert l. induction ds as [|d ds IH]; intros l H; [done|].
  simpl. by apply IH, elapse_settled.
Qed.

Lemma elapse_all_awaiting p tm l ds :
  awaiting p tm l →
  if decide (tm_due tm ≤ now l + elapsed ds)%Z
  then settled p (tm_arg tm) (elapse_all l ds)
  else awaiting p tm (elapse_all l ds).
Proof.
  revert l. induction ds as [|d ds IH]; intros l H.
  { simpl. rewrite decide_False; [done|]. destruct H as (_ & _ & _ & N). lia. }
  simpl. destruct (decide (tm_due tm ≤ now l + Z.max 0 d)%Z) as [Hd|Hd].
  - rewrite decide_True.
    + by apply elapse_all_settled, elapse_fires.
    + assert (0 ≤ elapsed ds)%Z; [|lia].
      clear. induction ds; simpl; lia.
  - assert (awaiting p tm (elapse l d)) as H' by (apply elapse_awaiting; [done|lia]).
    specialize (IH _ H'). rewrite elapse_now in IH.
    destruct (decide (tm_due tm ≤ now l + (Z.max 0 d + elapsed ds))%Z);
      [rewrite decide_True in IH by lia|rewrite decide_False in IH by lia]; done.
Qed.

Lemma delayed_awaiting (value : T) l :
  timers_wf l →
  awaiting (delayed value l).1 (MkTimer (now l + 1000) (length (promises l)) value)
           (delayed value l).2.
Proof.
  intros [Ht Hc]. unfold delayed, new_promise, setTimeout. simpl.
  split; [|split; [|split]].
  - unfold promise_of. simpl. by rewrite list_lookup_middle.
  - simpl. rewrite filter_app. rewrite filter_cons_True; [|done].
    assert (filter (λ tm', tm_promise tm' = length (promises l)) (timers l) = [])
      as ->; [|done].
    clear Hc. induction Ht as [|tm tms Hlt _ IH]; [done|].
    rewrite filter_cons_False; [done|lia].
  - unfold resolutions. simpl.
    assert (filter (λ c : nat * T, c.1 = length (promises l)) (resolve_calls l)
            = []) as ->; [|done].
    clear Ht. induction Hc as [|c cs Hlt _ IH]; [done|].
    rewrite filter_cons_False; [done|lia].
  - simpl. lia.
Qed.

(** C6, as amended.  [delayed] takes the value only; the delay is the
    constant 1000 (what the producer of the spec does when no delay is
    passed).  It returns a pending promise; the promise stays pending until
    1000 ms have passed since the call and is fulfilled with the value from
    then on; its resolving function is called once, and it is never
    rejected. *)
Theorem delayed_resolves_after_1000 (value : T) l ds :
  timers_wf l →
  let p := (delayed value l).1 in
  let l' := elapse_all (delayed value l).2 ds in
  delayed value l = produce_spec value None l
  ∧ promise_of p (delayed value l).2 = Some Pending
  ∧ promise_of p l'
    = Some (if decide (1000 ≤ elapsed ds)%Z then Fulfilled value else Pending)
  ∧ resolutions p l' = (if decide (1000 ≤ elapsed ds)%Z then 1 else 0)
  ∧ promise_of p l' ≠ Some Rejected.
Proof.
  intros Hwf p l'.
  pose proof (delayed_awaiting value l Hwf) as Haw.
  pose proof (elapse_all_awaiting _ _ _ ds Haw) as H.
  cbn [tm_due tm_arg] in H.
  change (now (delayed value l).2) with (now l) in H.
  change (elapse_all (delayed value l).2 ds) with l' in H.
  change (delayed value l).1 with p in H.
  split; [done|]. split; [apply Haw|].
  destruct (decide (now l + 1000 ≤ now l + elapsed ds)%Z) as [Hd|Hd].
  - rewrite !decide_True by lia. destruct H as (P & _ & R).
    rewrite P. done.
  - rewrite !decide_False by lia. destruct H as (P & _ & R & _).
    rewrite P. done.
Qed.

End TimerFacts.

(** * The theorems at concrete inputs *)

Local Ltac by_computation := vm_compute; reflexivity.
Local Ltac elem_by_computation :=
  match goal with
  | |- ?P => apply (@bool_decide_unpack P _); vm_compute; exact I
  end.

Lemma set_all_get_witness :
  sets_cell prog_obs (atom_cell a0) = false
  ∧ reentrant prog_obs = false
  ∧ ∃ w', set_all prog_obs 2 a0 ([1; 2] ++ [3]) w_obs = Some w'
          ∧ atom_get a0 w' = Some 3.
Proof.
  split; [reflexivity|]. split; [reflexivity|].
  destruct (set_all_get prog_obs 1 a0 [1; 2] 3 w_obs) as [_ Total].
  destruct (Total eq_refl) as [w' E]. exists w'. split; [exact E|].
  destruct (set_all_get prog_obs 2 a0 [1; 2] 3 w_obs) as [Get _].
  destruct (Get w' E) as (seg & _ & _ & _ & Quiet). exact (Quiet eq_refl).
Defined.

Lemma get_inside_listener_witness :
  atom_set prog_obs 1 a0 7 w_obs = Some w_obs_set
  ∧ sets_cell prog_obs (atom_cell a0) = false
  ∧ ∃ seg, trace w_obs_set = trace w_obs ++ Stored (atom_cell a0) 7 :: seg
      ∧ ∀ a' x, Got a' x ∈ seg → atom_cell a' = atom_cell a0 → x = Some 7.
Proof.
  assert (atom_set prog_obs 1 a0 7 w_obs = Some w_obs_set) as Hrun
    by by_computation.
  split; [exact Hrun|]. split; [reflexivity|].
  destruct (get_inside_listener prog_obs 1 a0 7 w_obs w_obs_set Hrun)
    as (seg & E & _ & Quiet).
  exists seg. split; [exact E|exact (Quiet eq_refl)].
Defined.



Lemma unsubscribe_idempotent_witness :
  atom_set prog_obs 1 a0 7 w_unsub = Some w_unsub_set
  ∧ CbUser 0 ∉ (listeners_of (atom_events a0) w_unsub).*2
  ∧ (∃ seg, trace w_unsub_set = trace w_unsub ++ Stored (atom_cell a0) 7 :: seg
       ∧ (∀ t l, Invoked t l (CbUser 0) [next_event w_unsub] ∉ seg)
       ∧ deliveries (atom_events a0) (next_event w_unsub) (CbUser 0) seg = 0)
  ∧ call_unsubscribe (atom_subscribe a0 (CbUser 0) w_obs).1 w_unsub = w_unsub.
Proof.
  assert (atom_set prog_obs 1 a0 7 w_unsub = Some w_unsub_set) as Hrun
    by by_computation.
  split; [exact Hrun|].
  destruct (unsubscribe_idempotent prog_obs a0 (CbUser 0) w_obs)
    as (Gone & Silent & Again).
  split; [exact Gone|]. split; [exact (Silent 1 7 w_unsub_set Hrun)|exact Again].
Defined.

Lemma late_subscriber_not_notified_witness :
  atom_set prog_obs 1 a0 7 w_obs = Some w_obs_set
  ∧ wf w_obs
  ∧ ∃ seg, trace w_obs_set = trace w_obs ++ Stored (atom_cell a0) 7 :: seg
      ∧ deliveries (atom_events a0) (next_event w_obs) (CbUser 2) seg = 0
      ∧ ∀ t l cb, next_listener w_obs ≤ l →
          Invoked t l cb [next_event w_obs] ∉ seg.
Proof.
  assert (atom_set prog_obs 1 a0 7 w_obs = Some w_obs_set) as Hrun
    by by_computation.
  assert (wf w_obs) as Hwf.
  { apply (reachable_wf prog_obs). exists 1, ops_obs. by_computation. }
  split; [exact Hrun|]. split; [exact Hwf|].
  destruct (late_subscriber_not_notified prog_obs 1 a0 7 w_obs w_obs_set Hrun)
    as (seg & E & _ & D & N).
  exists seg. split; [exact E|]. split; [|exact (N Hwf)].
  apply D. elem_by_computation.
Defined.

Lemma duplicate_subscribe_witness :
  wf w_atom ∧ is_Some (targets w_atom !! atom_events a0)
  ∧ unsubscribes prog_obs (atom_events a0) 0 = false
  ∧ w_dup = (atom_subscribe a0 (CbUser 0) w_atom).2
  ∧ listeners_of (atom_events a0) w_dup = [(0, CbUser 0)]
  ∧ atom_set prog_obs 1 a0 7 w_dup = Some w_dup_set
  ∧ (∃ seg, trace w_dup_set = trace w_dup ++ Stored (atom_cell a0) 7 :: seg
       ∧ deliveries (atom_events a0) (next_event w_dup) (CbUser 0) seg = 1)
  ∧ CbUser 0 ∉ (listeners_of (atom_events a0) w_dup_removed).*2
  ∧ atom_set prog_obs 1 a0 7 w_dup_removed = Some w_dup_removed_set
  ∧ (∃ seg, trace w_dup_removed_set
            = trace w_dup_removed ++ Stored (atom_cell a0) 7 :: seg
       ∧ deliveries (atom_events a0) (next_event w_dup_removed) (CbUser 0) seg
         = 0).
Proof.
  assert (wf w_atom) as Hwf.
  { apply (reachable_wf prog_obs). exists 1, [OCreate 5 None]. by_computation. }
  assert (is_Some (targets w_atom !! atom_events a0)) as Hs.
  { exists []. by_computation. }
  assert (atom_set prog_obs 1 a0 7 w_dup = Some w_dup_set) as Hrun
    by by_computation.
  assert (atom_set prog_obs 1 a0 7 w_dup_removed = Some w_dup_removed_set)
    as Hrun' by by_computation.
  split; [exact Hwf|]. split; [exact Hs|]. split; [reflexivity|].
  destruct (duplicate_subscribe prog_obs a0 0 w_atom)
    as (E1 & _ & Once & Gone & Never & _).
  split; [exact E1|]. split; [by_computation|]. split; [exact Hrun|].
  split; [exact (Once Hwf Hs eq_refl 1 7 w_dup_set Hrun)|].
  split; [exact Gone|]. split; [exact Hrun'|].
  exact (Never 1 7 w_dup_removed_set Hrun').
Defined.

Lemma shim_single_subscription_witness :
  reachable prog_obs w_shim
  ∧ (0, CbShim 0 a0) ∈ listeners_of (atom_events a0) w_shim
  ∧ (∀ t l k g, (l, CbShim k g) ∈ listeners_of t w_shim →
       t = atom_events a0 ∧ l = 0 ∧ k = 0 ∧ g = a0)
  ∧ (∀ t l k g, (l, CbShim k g) ∉ listeners_of t (unmount w_shim))
  ∧ reachable prog_obs w_rendered
  ∧ (∃ l, (l, CbShim (next_closure w_rendered) a0)
            ∈ listeners_of (atom_events a0) (commit_effect w_rendered))
  ∧ reachable prog_obs w_two_rendered
  ∧ (∀ t, CbShim 0 a0 ∉ (listeners_of t (commit_effect w_two_rendered)).*2)
  ∧ (∃ l, (l, CbShim (next_closure w_two_rendered) b1)
            ∈ listeners_of (atom_events b1) (commit_effect w_two_rendered)).
Proof.
  assert (reachable prog_obs w_shim) as Hr.
  { exists 1, ops_shim. by_computation. }
  assert ((0, CbShim 0 a0) ∈ listeners_of (atom_events a0) w_shim) as Hin.
  { elem_by_computation. }
  assert (reachable prog_obs w_rendered) as Hr1.
  { exists 1, [OCreate 5 None; ORender a0 a0]. by_computation. }
  assert (the_fiber w_rendered = Some f_rendered) as Hf1 by by_computation.
  assert (is_Some (targets w_rendered !! atom_events a0)) as Hs1.
  { exists []. by_computation. }
  assert (reachable prog_obs w_two_rendered) as Hr2.
  { exists 1, (ops_two ++ [ORender b1 b1]). by_computation. }
  assert (the_fiber w_two_rendered = Some f_two_rendered) as Hf2
    by by_computation.
  assert (is_Some (targets w_two_rendered !! atom_events b1)) as Hs2.
  { exists []. by_computation. }
  split; [exact Hr|]. split; [exact Hin|].
  destruct (shim_single_subscription prog_obs w_shim Hr) as (One & _ & Gone & _).
  split. { intros t l k g Hin'. exact (One _ _ _ _ _ _ _ _ Hin' Hin). }
  split; [exact Gone|]. split; [exact Hr1|].
  destruct (shim_single_subscription prog_obs w_rendered Hr1)
    as (_ & _ & _ & _ & Reg1 & _).
  destruct (Reg1 f_rendered Hf1 ltac:(discriminate) Hs1) as (l1 & f1' & Hl1 & _).
  split; [exists l1; exact Hl1|]. split; [exact Hr2|].
  destruct (shim_single_subscription prog_obs w_two_rendered Hr2)
    as (_ & _ & _ & Change & Reg2 & _).
  destruct (Change f_two_rendered (MkUnsub 0 (CbShim 0 a0)) Hf2 eq_refl
              ltac:(discriminate)) as [Old _].
  split; [exact Old|].
  destruct (Reg2 f_two_rendered Hf2 ltac:(discriminate) Hs2)
    as (l2 & f2' & Hl2 & _).
  exists l2. exact Hl2.
Defined.

Lemma subscribed_w_shim : subscribed a0 w_shim.
Proof.
  split.
  - exists 5. by_computation.
  - exists f_shim, 0, 0. split; [by_computation|].
    split; [reflexivity|]. split; [reflexivity|]. split; [reflexivity|].
    elem_by_computation.
Defined.


Lemma rerender_iff_changed_witness :
  wf w_shim ∧ subscribed a0 w_shim
  ∧ sets_cell prog_obs (atom_cell a0) = false
  ∧ the_fiber w_shim = Some f_shim
  ∧ atom_set prog_obs 1 a0 6 w_shim = Some w_shim_new
  ∧ render_scheduled w_shim_new = true
  ∧ renders (flush w_shim_new) = 2
  ∧ the_fiber (flush w_shim_new) = Some f_shim_rendered
  ∧ atom_set prog_obs 1 a0 6 (flush w_shim_new) = Some w_shim_again
  ∧ render_scheduled w_shim_again = true
  ∧ renders (flush w_shim_again) = 3
  ∧ the_fiber (flush w_shim_again) = Some f_shim_settled
  ∧ atom_set prog_obs 1 a0 6 (flush w_shim_again) = Some w_shim_third
  ∧ render_scheduled w_shim_third = false
  ∧ renders (flush w_shim_third) = 3.
Proof.
  assert (wf w_shim) as Hwf.
  { apply (reachable_wf prog_obs). exists 1, ops_shim. by_computation. }
  assert (the_fiber w_shim = Some f_shim) as Hf by by_computation.
  assert (atom_set prog_obs 1 a0 6 w_shim = Some w_shim_new) as Hrun
    by by_computation.
  assert (the_fiber (flush w_shim_new) = Some f_shim_rendered) as Hf2
    by by_computation.
  assert (atom_set prog_obs 1 a0 6 (flush w_shim_new) = Some w_shim_again)
    as Hrun2 by by_computation.
  assert (the_fiber (flush w_shim_again) = Some f_shim_settled) as Hf3
    by by_computation.
  assert (atom_set prog_obs 1 a0 6 (flush w_shim_again) = Some w_shim_third)
    as Hrun3 by by_computation.
  split; [exact Hwf|]. split; [exact subscribed_w_shim|].
  split; [reflexivity|]. split; [exact Hf|]. split; [exact Hrun|].
  destruct (rerender_iff_changed prog_obs 1 a0 6 w_shim w_shim_new f_shim
              Hwf subscribed_w_shim eq_refl Hf Hrun) as (_ & Iff & After & _).
  assert (render_scheduled w_shim_new = true) as Hs.
  { apply Iff. right. right. discriminate. }
  destruct After as (Count & Hwf2 & Hsub2 & _); [discriminate|].
  rewrite Hs in Count.
  split; [exact Hs|]. split; [exact Count|]. split; [exact Hf2|].
  split; [exact Hrun2|].
  destruct (rerender_iff_changed prog_obs 1 a0 6 (flush w_shim_new) w_shim_again
              f_shim_rendered Hwf2 Hsub2 eq_refl Hf2 Hrun2)
    as (_ & Iff2 & After2 & _).
  assert (render_scheduled w_shim_again = true) as Hs2.
  { apply Iff2. right. left. reflexivity. }
  destruct After2 as (Count2 & Hwf3 & Hsub3 & _); [discriminate|].
  rewrite Hs2 in Count2.
  split; [exact Hs2|]. split; [exact Count2|]. split; [exact Hf3|].
  split; [exact Hrun3|].
  destruct (rerender_iff_changed prog_obs 1 a0 6 (flush w_shim_again) w_shim_third
              f_shim_settled Hwf3 Hsub3 eq_refl Hf3 Hrun3)
    as (_ & Iff3 & After3 & _).
  assert (render_scheduled w_shim_third = false) as Hs3.
  { destruct (render_scheduled w_shim_third) eqn:E; [|reflexivity].
    destruct (proj1 Iff3 eq_refl) as [H|[H|H]];
      [discriminate H|discriminate H|exfalso; apply H; reflexivity]. }
  destruct After3 as (Count3 & _); [discriminate|].
  rewrite Hs3 in Count3.
  split; [exact Hs3|exact Count3].
Defined.

(** C8 as stated fails: right after the mount, [set] with the snapshot the
    hook already holds does notify the shim's callback, which reads the
    atom, but no render is scheduled and the element is not rendered
    again. *)
Lemma rerender_on_equal_snapshot_cex :
  atom_set prog_obs 1 a0 5 w_shim = Some w_shim_same
  ∧ trace w_shim_same
    = trace w_shim
      ++ [Stored 0 5; Invoked 0 0 (CbShim 0 a0) [0]; Got a0 (Some 5)]
  ∧ render_scheduled w_shim_same = false
  ∧ renders (flush w_shim_same) = renders w_shim.
Proof.
  split; [by_computation|]. split; [by_computation|].
  split; by_computation.
Qed.

(** After an update that changed the state was rendered, [set] with the
    value the hook already holds is not skipped: the updater is queued
    ([getSnapshot] is not called inside [set]) and the hook body runs a third
    time; the same [set] after that evaluation schedules nothing. *)
Example evaluated_again_after_rendered_update :
  atom_set prog_obs 1 a0 6 (flush w_shim_new) = Some w_shim_again
  ∧ trace w_shim_again
    = trace (flush w_shim_new) ++ [Stored 0 6; Invoked 0 0 (CbShim 0 a0) [1]]
  ∧ render_scheduled w_shim_again = true
  ∧ renders (flush w_shim_again) = 3
  ∧ atom_set prog_obs 1 a0 6 (flush w_shim_again) = Some w_shim_third
  ∧ trace w_shim_third
    = trace (flush w_shim_again)
      ++ [Stored 0 6; Invoked 0 0 (CbShim 0 a0) [2]; Got a0 (Some 6)]
  ∧ render_scheduled w_shim_third = false
  ∧ renders (flush w_shim_third) = 3.
Proof.
  split; [by_computation|]. split; [by_computation|].
  split; [by_computation|]. split; [by_computation|].
  split; [by_computation|]. split; [by_computation|].
  split; by_computation.
Qed.

Lemma delayed_resolves_after_1000_witness :
  timers_wf (empty_loop : loop nat)
  ∧ promise_of 0 (elapse_all (delayed 7 empty_loop).2 [400; 700]%Z)
    = Some (Fulfilled 7)
  ∧ resolutions 0 (elapse_all (delayed 7 empty_loop).2 [400; 700]%Z) = 1.
Proof.
  assert (timers_wf (empty_loop : loop nat)) as Hwf.
  { split; apply Forall_nil_2. }
  split; [exact Hwf|].
  destruct (delayed_resolves_after_1000 7 empty_loop [400; 700]%Z Hwf)
    as (_ & _ & P & R & _).
  split; [exact P|exact R].
Defined.

(** C6 as stated fails: a delay of 500 ms is what [produce] of the spec
    waits for, but [delayed] has no such parameter and waits 1000 ms: after
    600 ms its promise is still pending. *)
Lemma delayed_has_no_delay_parameter_cex :
  promise_of 0 (elapse (produce_spec 7 (Some 500%Z) empty_loop).2 600)
  = Some (Fulfilled 7)
  ∧ promise_of 0 (elapse (delayed 7 empty_loop).2 600) = Some Pending.
Proof. split; by_computation. Qed.

(** A listener that calls [set] itself: the listener called after it reads
    the value assigned last, in the nested pass and in the outer one; a call
    depth of one is not enough for this program. *)
Example reentrant_set :
  atom_set prog_re 2 a0 7 w_re = Some w_re_set
  ∧ trace w_re_set
    = [ Stored 0 7; Invoked 0 0 (CbUser 0) [0];
        Stored 0 9; Invoked 0 1 (CbUser 1) [1]; Got a0 (Some 9);
        Invoked 0 1 (CbUser 1) [0]; Got a0 (Some 9) ]
  ∧ atom_get a0 w_re_set = Some 9
  ∧ atom_set prog_re 1 a0 7 w_re = None.
Proof.
  split; [by_computation|]. split; [by_computation|].
  split; by_computation.
Qed.

(** * Further facts about [createAtom] *)

Section AtomFacts.

Context {T : Type} `{!EqDecision T}.
Variable prog : list (list (action T)).

Local Abbreviation world := (world T).

Implicit Types (w : world) (a b : Atom) (cb : callback) (t e l n : nat).

(** X1.  [createAtom(v)] returns an atom over a new variable that holds [v]; the
    atoms that exist keep their values and their listeners, and no listener
    is called.  Without [events] the atom gets an [EventTarget] of its own,
    with an empty listener list; with [events] it uses the one passed. *)
Theorem createAtom_fresh (v : T) events w :
  let a := (createAtom v events w).1 in
  let w' := (createAtom v events w).2 in
  atom_get a w' = Some v
  ∧ atom_get a w = None
  ∧ (∀ b, atom_cell b ≠ atom_cell a → atom_get b w' = atom_get b w)
  ∧ (∀ t, listeners_of t w' = listeners_of t w)
  ∧ trace w' = trace w
  ∧ match events with
    | Some t => atom_events a = t
    | None => targets w !! atom_events a = None
              ∧ targets w' !! atom_events a = Some []
    end.
Proof.
  intros a w'.
  assert (atom_cell a = fresh (dom (cells w))) as Hc.
  { unfold a, createAtom. by destruct events. }
  assert (cells w' = <[fresh (dom (cells w)) := v]> (cells w)) as Hcells.
  { unfold w', createAtom. by destruct events. }
  split; [|split; [|split; [|split; [|split]]]].
  - unfold atom_get. rewrite Hcells, Hc. apply lookup_insert_eq.
  - unfold atom_get. rewrite Hc. apply not_elem_of_dom, is_fresh.
  - intros b Hne. unfold atom_get. rewrite Hcells, lookup_insert_ne; [done|].
    by rewrite <- Hc.
  - intros t. apply (createAtom_listeners prog).
  - unfold w', createAtom. by destruct events.
  - unfold a, w', createAtom. destruct events as [t|]; simpl; [done|].
    split; [apply not_elem_of_dom, is_fresh|apply lookup_insert_eq].
Qed.

(** X2.  A call of [set] on one atom changes the value of no other atom (that no
    listener sets), removes no [EventTarget], and unsubscribes nobody: a
    listener that no callback of the program unsubscribes is still
    registered, as the same listener object, when the call returns. *)
Theorem set_frame fuel a v w w' :
  atom_set prog fuel a v w = Some w' →
  (∀ b, atom_cell b ≠ atom_cell a → sets_cell prog (atom_cell b) = false →
     atom_get b w' = atom_get b w)
  ∧ (∀ t, is_Some (targets w !! t) → is_Some (targets w' !! t))
  ∧ (∀ t l cb, (l, cb) ∈ listeners_of t w → stays_subscribed prog t cb →
       (l, cb) ∈ listeners_of t w').
Proof.
  intros Hrun.
  pose proof (atom_set_ext prog fuel a v w w' 0 ltac:(lia) Hrun) as Hext.
  split; [|split].
  - intros b Hne Hq. unfold atom_get.
    rewrite (ext_cells _ _ _ _ _ Hext); [|congruence].
    simpl. by rewrite lookup_insert_ne.
  - intros t Ht. by apply (ext_targets _ _ _ _ _ Hext).
  - intros t l cb Hin Hstay. apply (ext_keep _ _ _ _ _ Hext); [done|].
    intros n -> HU. simpl in Hstay. congruence.
Qed.

(** X3.  Two atoms that were given the same [EventTarget] share their listeners:
    a callback subscribed through the one is called, once, by [set] on the
    other, although the value of the first did not change. *)
Theorem shared_events_notify fuel a b n v w w' :
  wf w → atom_events a = atom_events b →
  is_Some (targets w !! atom_events a) →
  unsubscribes prog (atom_events a) n = false →
  atom_set prog fuel b v (atom_subscribe a (CbUser n) w).2 = Some w' →
  ∃ seg,
    trace w' = trace w ++ Stored (atom_cell b) v :: seg
    ∧ deliveries (atom_events a) (next_event w) (CbUser n) seg = 1
    ∧ (atom_cell a ≠ atom_cell b → sets_cell prog (atom_cell a) = false →
         atom_get a w' = atom_get a w).
Proof.
  intros Hwf Hev Hs HU Hrun.
  set (w1 := (atom_subscribe a (CbUser n) w).2) in *.
  assert (wf w1) as Hwf1 by apply (wf_add prog), Hwf.
  destruct (registered_after_add prog (atom_events a) (CbUser n) w Hs) as [l Hl].
  destruct (atom_set_scope prog _ _ _ _ _ Hrun) as (seg & E & _ & _ & C).
  exists seg. split; [|split].
  - rewrite E. unfold w1, atom_subscribe. simpl. by rewrite (trace_add prog).
  - destruct (C Hwf1 (CbUser n)) as [_ Cone]. rewrite Hev.
    replace (next_event w) with (next_event w1)
      by (unfold w1, atom_subscribe; simpl; apply (next_event_add prog)).
    apply (Cone l); [by rewrite <- Hev|]. left. simpl. by rewrite <- Hev.
  - intros Hne Hq.
    pose proof (atom_set_ext prog fuel b v w1 w' 0 ltac:(lia) Hrun) as Hext.
    unfold atom_get. rewrite (ext_cells _ _ _ _ _ Hext); [|congruence].
    simpl. rewrite lookup_insert_ne; [|done].
    unfold w1, atom_subscribe. simpl. by rewrite (cells_add prog).
Qed.

(** X4.  The function returned by [subscribe(cb)] removes by callback, not by
    registration.  After unsubscribing and subscribing again, the callback
    is a new listener object at the end of the list (so it is called last);
    the function returned the second time is the same removal as the first,
    and the first one, called again, removes the new registration. *)
Theorem resubscribe a cb w :
  is_Some (targets w !! atom_events a) →
  let t := atom_events a in
  let u1 := (atom_subscribe a cb w).1 in
  let w1 := (atom_subscribe a cb w).2 in
  let w2 := call_unsubscribe u1 w1 in
  let u3 := (atom_subscribe a cb w2).1 in
  let w3 := (atom_subscribe a cb w2).2 in
  listeners_of t w3
  = filter (λ x : listener, x.2 ≠ cb) (listeners_of t w) ++ [(next_listener w2, cb)]
  ∧ u3 = u1
  ∧ cb ∉ (listeners_of t (call_unsubscribe u1 w3)).*2.
Proof.
  intros Hs t u1 w1 w2 u3 w3.
  assert (listeners_of t w2 = filter (λ x : listener, x.2 ≠ cb) (listeners_of t w))
    as H2.
  { unfold w2, call_unsubscribe, u1, w1, atom_subscribe. simpl.
    rewrite (listeners_of_remove prog), decide_True by done.
    fold t. rewrite (listeners_of_add prog). case_decide as Hc; [|done].
    rewrite filter_app, filter_cons_False; [|simpl; by intros ?].
    by rewrite filter_nil, app_nil_r. }
  split; [|split; [done|apply (not_registered_after_remove prog)]].
  unfold w3, atom_subscribe. simpl. fold t.
  rewrite (listeners_of_add prog), decide_True; [by rewrite H2|].
  split; [done|]. split.
  - unfold w2, call_unsubscribe, u1, w1, atom_subscribe. simpl.
    apply (targets_remove_some prog), (targets_add_some prog), Hs.
  - apply (not_registered_after_remove prog).
Qed.

(** ** The order in which listeners are called *)






End AtomFacts.

(** * Further facts about the shim *)

Section ShimFacts.

Context {T : Type} `{!EqDecision T}.
Variable prog : list (list (action T)).

Local Abbreviation world := (world T).
Local Abbreviation Wp := (λ c, sets_cell prog c = true).
Local Abbreviation Up := (λ t n, unsubscribes prog t n = true).

Implicit Types (w : world) (a b s g : Atom) (cb : callback) (t e l n k : nat).

(** While no callback of the shim is registered, nothing touches the fiber. *)
Lemma prim_no_shim W U lo w w' :
  prim W U lo w w' →
  (∀ t l k g, (l, CbShim k g) ∉ listeners_of t w) →
  the_fiber w' = the_fiber w ∧ ∀ t l k g, (l, CbShim k g) ∉ listeners_of t w'.
Proof.
  intros Hp Hno. destruct Hp; try done.
  - split; [apply (fiber_add prog)|]. intros t' l k g Hin.
    apply (elem_of_listeners_add prog) in Hin as [Hin|(_ & _ & _ & [=])].
    by eapply Hno.
  - split; [apply (fiber_remove prog)|]. intros t' l k g Hin.
    apply (elem_of_listeners_remove prog) in Hin as [Hin _]. by eapply Hno.
  - exfalso. by eapply Hno.
Qed.

Lemma steps_no_shim W U lo w w' :
  steps W U lo w w' →
  (∀ t l k g, (l, CbShim k g) ∉ listeners_of t w) →
  the_fiber w' = the_fiber w.
Proof.
  induction 1 as [|w1 w2 w3 H12 _ IH]; [done|]. intros Hno.
  destruct (prim_no_shim _ _ _ _ _ H12 Hno) as [E Hno2].
  rewrite <- E. by apply IH.
Qed.

Lemma no_shim_unmounted w :
  wf w → the_fiber w = None → ∀ t l k g, (l, CbShim k g) ∉ listeners_of t w.
Proof.
  intros Hwf Hf t l k g Hin.
  destruct (wf_shim _ Hwf _ _ _ _ Hin) as (f & Hf' & _). congruence.
Qed.

(** The world after the first evaluation and the commit. *)
Lemma mount_commit a v w :
  wf w → the_fiber w = None → atom_get a w = Some v →
  is_Some (targets w !! atom_events a) →
  let w1 := set_fiber (Some (MkFiber v [] (a, a) None None 1 false None)) w in
  let cb := CbShim (next_closure w) a in
  useSyncExternalStoreShim a a w = Some (v, w1)
  ∧ commit_effect w1
    = set_fiber (Some (MkFiber v [] (a, a) (Some (a, a))
                         (Some (MkUnsub (atom_events a) cb)) 1 false None))
        (addEventListener (atom_events a) cb (bump_closure w1))
  ∧ ∀ t, listeners_of t (commit_effect w1)
         = if decide (t = atom_events a)
           then listeners_of (atom_events a) w ++ [(next_listener w, cb)]
           else listeners_of t w.
Proof.
  intros Hwf Hf Hv Hs w1 cb.
  assert (commit_effect w1
          = set_fiber (Some (MkFiber v [] (a, a) (Some (a, a))
                               (Some (MkUnsub (atom_events a) cb)) 1 false None))
              (addEventListener (atom_events a) cb (bump_closure w1))) as Hc.
  { unfold commit_effect. simpl. by try rewrite decide_False by done. }
  split; [|split; [exact Hc|]].
  { unfold useSyncExternalStoreShim, useState_getSnapshot. by rewrite Hf, Hv. }
  intros t. rewrite Hc, (listeners_of_set_fiber prog).
  rewrite (listeners_of_add prog).
  destruct (decide (t = atom_events a)) as [->|Hne].
  - rewrite decide_True; [done|]. split; [done|]. split; [exact Hs|].
    intros ([l' cb'] & Hcb & Hin)%list_elem_of_fmap. simpl in Hcb. subst cb'.
    by eapply (no_shim_unmounted w Hwf Hf).
  - rewrite decide_False; [done|]. by intros [? _].
Qed.

Lemma mount_effect a v w :
  wf w → the_fiber w = None → atom_get a w = Some v →
  is_Some (targets w !! atom_events a) →
  let w1 := set_fiber (Some (MkFiber v [] (a, a) None None 1 false None)) w in
  useSyncExternalStoreShim a a w = Some (v, w1)
  ∧ subscribed a (commit_effect w1)
  ∧ wf (commit_effect w1)
  ∧ ∀ b, atom_get b (commit_effect w1) = atom_get b w.
Proof.
  intros Hwf Hf Hv Hs w1.
  destruct (mount_commit a v w Hwf Hf Hv Hs) as (Hr & Hc & Hl).
  fold w1 in Hr, Hc, Hl.
  assert (∀ b, atom_get b (commit_effect w1) = atom_get b w) as Hget.
  { intros b. rewrite Hc. unfold atom_get. simpl. by rewrite (cells_add prog). }
  split; [exact Hr|]. split; [|split; [|exact Hget]].
  - split.
    + rewrite Hget, Hv. eauto.
    + eexists _, (next_closure w), (next_listener w).
      split; [by rewrite Hc|]. simpl. split; [done|]. split; [done|].
      split; [done|]. rewrite Hl, decide_True by done.
      apply elem_of_app. right. by left.
  - apply (commit_wf prog). by eapply (render_wf prog).
Qed.

(** X6.  The first evaluation of the hook and the commit of its effect: the hook
    returns the value of the atom, and the commit registers one new callback
    of the shim, at the end of the atom's listener list.  From then on the
    element is subscribed; no value changed and no listener was called. *)
Theorem mount_subscribes a v w :
  wf w → the_fiber w = None → atom_get a w = Some v →
  is_Some (targets w !! atom_events a) →
  ∃ w1, useSyncExternalStoreShim a a w = Some (v, w1)
    ∧ subscribed a (commit_effect w1)
    ∧ wf (commit_effect w1)
    ∧ listeners_of (atom_events a) (commit_effect w1)
      = listeners_of (atom_events a) w
        ++ [(next_listener w, CbShim (next_closure w) a)]
    ∧ (∀ t, t ≠ atom_events a →
         listeners_of t (commit_effect w1) = listeners_of t w)
    ∧ (∀ b, atom_get b (commit_effect w1) = atom_get b w)
    ∧ trace (commit_effect w1) = trace w
    ∧ renders (commit_effect w1) = 1
    ∧ render_scheduled (commit_effect w1) = false.
Proof.
  intros Hwf Hf Hv Hs.
  destruct (mount_commit a v w Hwf Hf Hv Hs) as (Hr & Hc & Hl).
  destruct (mount_effect a v w Hwf Hf Hv Hs) as (_ & Hsub & Hwf2 & Hget).
  eexists. split; [exact Hr|]. split; [exact Hsub|]. split; [exact Hwf2|].
  split; [|split; [|split; [exact Hget|split; [|split]]]].
  - by rewrite Hl, decide_True.
  - intros t Hne. by rewrite Hl, decide_False.
  - rewrite Hc. simpl. by rewrite (trace_add prog).
  - by rewrite Hc.
  - by rewrite Hc.
Qed.

(** X7.  The effect only subscribes: it does not read the atom again.  A [set]
    that runs after the first evaluation and before the commit reaches no
    callback of the shim, so after the commit the hook still returns the
    value of the first evaluation, although the atom holds the new one, and
    no render is scheduled that would correct it. *)
Theorem set_before_commit_is_missed fuel a v v' w w1 w2 :
  wf w → the_fiber w = None →
  sets_cell prog (atom_cell a) = false →
  useSyncExternalStoreShim a a w = Some (v, w1) →
  atom_set prog fuel a v' w1 = Some w2 →
  fst <$> useSyncExternalStoreShim a a (commit_effect w2) = Some v
  ∧ native_snapshot_spec a (commit_effect w2) = Some v'
  ∧ render_scheduled (commit_effect w2) = false.
Proof.
  intros Hwf Hf Hq Hr Hrun.
  pose proof (render_wf prog _ _ _ _ _ Hr Hwf) as Hwf1.
  unfold useSyncExternalStoreShim, useState_getSnapshot in Hr.
  rewrite Hf in Hr. destruct (atom_get a w) as [v0|] eqn:Hv; [|done].
  simpl in Hr. injection Hr as -> <-.
  set (f1 := MkFiber v [] (a, a) None None 1 false None) in *.
  set (w1 := set_fiber (Some f1) w) in *.
  assert (the_fiber w2 = Some f1) as Hf2.
  { rewrite (steps_no_shim Wp Up 0 (committed a v' w1) w2); [done| |].
    - apply (atom_set_pass_steps prog fuel); [lia|done].
    - intros t l k g Hin. change (listeners_of t (committed a v' w1))
        with (listeners_of t w1) in Hin.
      destruct (wf_shim _ Hwf1 _ _ _ _ Hin) as (f & Hf' & Hc & _).
      injection Hf' as <-. done. }
  pose proof (atom_set_get prog _ _ _ _ _ Hq Hrun) as Hv2.
  set (cb := CbShim (next_closure w2) a).
  assert (commit_effect w2
          = set_fiber (Some (MkFiber v [] (a, a) (Some (a, a))
                               (Some (MkUnsub (atom_events a) cb)) 1 false None))
              (addEventListener (atom_events a) cb (bump_closure w2))) as Hc.
  { unfold commit_effect. rewrite Hf2. simpl. by try rewrite decide_False by done. }
  rewrite Hc. split; [|split].
  - unfold useSyncExternalStoreShim, useState_getSnapshot. done.
  - unfold native_snapshot_spec, atom_get. simpl. by rewrite (cells_add prog).
  - done.
Qed.

(** X8.  [useState] calls its initializer on the first evaluation only: when the
    hook is evaluated with another atom, it returns what the evaluation with
    the previous arguments would have returned, not the value of the new
    atom.  The commit then moves the subscription: no callback for the old
    atom stays registered and the element is subscribed to the new atom. *)
Theorem change_of_atom a b w :
  wf w → subscribed a w → a ≠ b →
  is_Some (atom_get b w) → is_Some (targets w !! atom_events b) →
  ∃ x w1, useSyncExternalStoreShim b b w = Some (x, w1)
    ∧ fst <$> useSyncExternalStoreShim a a w = Some x
    ∧ subscribed b (commit_effect w1)
    ∧ wf (commit_effect w1)
    ∧ (∀ t l k, (l, CbShim k a) ∉ listeners_of t (commit_effect w1))
    ∧ (∀ c, atom_get c (commit_effect w1) = atom_get c w).
Proof.
  intros Hwf [Hva (f & k & l & Hf & Hp & Hd & Hc & Hin)] Hne Hvb Hsb.
  set (x := foldl (apply_update w) (f_state f) (f_queue f)).
  set (f1 := MkFiber x [] (b, b) (f_deps f) (f_cleanup f) (S (f_renders f))
                     false (Some (f_lanes f && negb (bails_out x b b f)))).
  assert (useSyncExternalStoreShim b b w = Some (x, set_fiber (Some f1) w)) as Hr.
  { unfold useSyncExternalStoreShim, useState_getSnapshot. by rewrite Hf. }
  exists x, (set_fiber (Some f1) w). split; [exact Hr|].
  split. { unfold useSyncExternalStoreShim, useState_getSnapshot. by rewrite Hf. }
  set (w1 := set_fiber (Some f1) w).
  assert (wf w1) as Hwf1 by (by eapply (render_wf prog)).
  pose proof (commit_wf prog w1 Hwf1) as Hwf2.
  set (w0 := bump_closure (removeEventListener (atom_events a) (CbShim k a) w1)).
  set (cb := CbShim (next_closure w1) b).
  assert (commit_effect w1
          = set_fiber (Some (MkFiber x [] (b, b) (Some (b, b))
                               (Some (MkUnsub (atom_events b) cb))
                               (S (f_renders f)) false
                               (Some (f_lanes f && negb (bails_out x b b f)))))
              (addEventListener (atom_events b) cb w0)) as Hce.
  { unfold commit_effect. simpl. rewrite Hd, Hc.
    rewrite decide_False by congruence. unfold call_unsubscribe. simpl.
    by rewrite (next_closure_remove prog). }
  split; [|split; [done|split]].
  - split.
    + rewrite Hce. unfold atom_get. simpl.
      rewrite (cells_add prog). unfold w0. simpl.
      by rewrite (cells_remove prog).
    + destruct (registered_after_add prog (atom_events b) cb w0) as [l' Hl'].
      { apply (targets_remove_some prog). exact Hsb. }
      eexists _, (next_closure w1), l'. split; [by rewrite Hce|]. simpl.
      split; [done|]. split; [done|]. split; [done|].
      by rewrite Hce, (listeners_of_set_fiber prog).
  - intros t l' k' Hin'.
    destruct (wf_shim _ Hwf2 _ _ _ _ Hin') as (f' & Hf' & Hc' & _).
    rewrite Hce in Hf'. simpl in Hf'. injection Hf' as <-. simpl in Hc'.
    unfold cb in Hc'. congruence.
  - intros c. rewrite Hce. unfold atom_get. simpl.
    rewrite (cells_add prog). unfold w0. simpl.
    by rewrite (cells_remove prog).
Qed.

(** X9.  After the element was torn down, a call of [set] reaches no callback of
    the shim and leaves React's state alone: the cleanup of the effect took
    the subscription away. *)
Theorem set_after_unmount fuel a v w w' :
  wf w → atom_set prog fuel a v (unmount w) = Some w' →
  the_fiber w' = None
  ∧ ∃ seg, trace w' = trace w ++ Stored (atom_cell a) v :: seg
      ∧ ∀ t l k g, Invoked t l (CbShim k g) [next_event w] ∉ seg.
Proof.
  intros Hwf Hrun.
  pose proof (unmount_wf prog w Hwf) as Hwf0.
  assert (the_fiber (unmount w) = None) as Hf0.
  { unfold unmount. by destruct (the_fiber w) eqn:E. }
  assert (trace (unmount w) = trace w ∧ next_event (unmount w) = next_event w)
    as [Ht He].
  { unfold unmount. destruct (the_fiber w) as [f|] eqn:E; [|done]. simpl.
    destruct (f_cleanup f) as [u|]; [|done]. unfold call_unsubscribe.
    by rewrite (trace_remove prog), (next_event_remove prog). }
  pose proof (no_shim_unmounted _ Hwf0 Hf0) as Hno.
  split.
  - rewrite <- Hf0.
    apply (steps_no_shim Wp Up 0 (committed a v (unmount w)) w').
    + apply (atom_set_pass_steps prog fuel); [lia|done].
    + exact Hno.
  - destruct (atom_set_scope prog _ _ _ _ _ Hrun) as (seg & E & Hin & _).
    exists seg. rewrite <- Ht, <- He. split; [done|].
    intros t l k g Hi. apply Hin in Hi as [_ Hi]. by eapply Hno.
Qed.

End ShimFacts.

(** * Further facts about [delayed] *)

Section MoreTimerFacts.

Context {T : Type}.

Implicit Types (l : loop T) (tm : timer T) (p : nat) (d : Z).

Lemma elapsed_nonneg (ds : list Z) : (0 ≤ elapsed ds)%Z.
Proof. induction ds; simpl; lia. Qed.

Lemma elapsed_app (ds1 ds2 : list Z) :
  elapsed (ds1 ++ ds2) = (elapsed ds1 + elapsed ds2)%Z.
Proof. induction ds1 as [|d ds1 IH]; simpl; lia. Qed.

Lemma elapse_all_now l (ds : list Z) :
  now (elapse_all l ds) = (now l + elapsed ds)%Z.
Proof.
  revert l. induction ds as [|d ds IH]; intros l; [simpl; lia|].
  change (elapse_all l (d :: ds)) with (elapse_all (elapse l d) ds).
  rewrite IH, elapse_now. simpl. lia.
Qed.

Lemma timers_wf_empty : timers_wf (@empty_loop T).
Proof. split; apply Forall_nil_2. Qed.

Lemma timers_wf_delayed (value : T) l :
  timers_wf l → timers_wf (delayed value l).2.
Proof.
  intros [Ht Hc]. unfold timers_wf, delayed, new_promise, setTimeout. simpl.
  rewrite length_app. simpl. split.
  - apply Forall_app. split.
    + eapply Forall_impl; [exact Ht|]. simpl. intros. lia.
    + apply Forall_singleton. simpl. lia.
  - eapply Forall_impl; [exact Hc|]. simpl. intros. lia.
Qed.

Lemma resolve_length l p (v : T) :
  length (promises (resolve l p v)) = length (promises l).
Proof.
  unfold resolve. simpl.
  destruct (promises l !! p) as [[| |]|]; try done. apply length_insert.
Qed.

Lemma timers_wf_run (fired : list (timer T)) l :
  timers_wf l →
  Forall (λ tm, tm_promise tm < length (promises l)) fired →
  timers_wf (foldl (λ l0 tm, resolve l0 (tm_promise tm) (tm_arg tm)) l fired).
Proof.
  revert l. induction fired as [|tm fired IH]; intros l Hwf Hf; [done|].
  simpl. apply Forall_cons in Hf as [Htm Hf]. apply IH.
  - destruct Hwf as [Ht Hc]. unfold timers_wf.
    rewrite resolve_length. split; [done|].
    unfold resolve. simpl. apply Forall_app. split; [done|].
    by apply Forall_singleton.
  - by rewrite resolve_length.
Qed.

Lemma Forall_filter_keep {A} (P Q : A → Prop) `{!∀ x, Decision (Q x)}
    (ls : list A) :
  Forall P ls → Forall P (filter Q ls).
Proof.
  rewrite !Forall_forall. intros HP x [_ Hin]%list_elem_of_filter. by apply HP.
Qed.

Lemma timers_wf_elapse l d : timers_wf l → timers_wf (elapse l d).
Proof.
  intros [Ht Hc]. unfold elapse. apply timers_wf_run.
  - split; simpl; [|done]. by apply Forall_filter_keep.
  - simpl. by apply Forall_filter_keep.
Qed.

Lemma timers_wf_elapse_all l (ds : list Z) :
  timers_wf l → timers_wf (elapse_all l ds).
Proof.
  revert l. induction ds as [|d ds IH]; intros l H; [done|].
  simpl. by apply IH, timers_wf_elapse.
Qed.

(** A later call of [delayed] leaves the earlier promises as they are. *)
Lemma delayed_keeps_awaiting (value : T) p tm l :
  awaiting p tm l → awaiting p tm (delayed value l).2.
Proof.
  intros (P & F & R & N).
  pose proof (lookup_lt_Some _ _ _ P) as Hlt.
  unfold awaiting, delayed, new_promise, setTimeout, promise_of, resolutions.
  simpl. split; [|split; [|split]].
  - by rewrite lookup_app_l.
  - rewrite filter_app, F. rewrite filter_cons_False; [done|]. simpl. lia.
  - done.
  - done.
Qed.

Lemma delayed_keeps_settled (value v : T) p l :
  settled p v l → settled p v (delayed value l).2.
Proof.
  intros (P & F & R).
  pose proof (lookup_lt_Some _ _ _ P) as Hlt.
  unfold settled, delayed, new_promise, setTimeout, promise_of, resolutions.
  simpl. split; [|split].
  - by rewrite lookup_app_l.
  - rewrite filter_app, F. rewrite filter_cons_False; [done|]. simpl. lia.
  - done.
Qed.

(** The state of the promise of [delayed(value)] after the steps [ds] of the
    clock. *)
Lemma delayed_then_elapse (value : T) l ds :
  timers_wf l →
  let p := (delayed value l).1 in
  let tm := MkTimer (now l + 1000) p value in
  if decide (1000 ≤ elapsed ds)%Z
  then settled p value (elapse_all (delayed value l).2 ds)
  else awaiting p tm (elapse_all (delayed value l).2 ds).
Proof.
  intros Hwf p tm.
  pose proof (delayed_awaiting value l Hwf) as Haw.
  pose proof (elapse_all_awaiting _ _ _ ds Haw) as H.
  cbn [tm_due tm_arg] in H.
  change (now (delayed value l).2) with (now l) in H.
  destruct (decide (now l + 1000 ≤ now l + elapsed ds)%Z) as [Hd|Hd].
  - by rewrite decide_True by lia.
  - by rewrite decide_False by lia.
Qed.

(** X10.  Two calls of [delayed] give two promises, and each is fulfilled with its
    own value once 1000 ms have passed since its own call: the second call
    and its timer change nothing about the first promise, whether it was
    still pending then or not.  Each resolving function is called once. *)
Theorem delayed_twice (v1 v2 : T) l ds1 ds2 :
  timers_wf l →
  let p1 := (delayed v1 l).1 in
  let l1 := elapse_all (delayed v1 l).2 ds1 in
  let p2 := (delayed v2 l1).1 in
  let l2 := elapse_all (delayed v2 l1).2 ds2 in
  p1 ≠ p2
  ∧ promise_of p1 l2
    = Some (if decide (1000 ≤ elapsed ds1 + elapsed ds2)%Z
            then Fulfilled v1 else Pending)
  ∧ promise_of p2 l2
    = Some (if decide (1000 ≤ elapsed ds2)%Z then Fulfilled v2 else Pending)
  ∧ resolutions p1 l2
    = (if decide (1000 ≤ elapsed ds1 + elapsed ds2)%Z then 1 else 0)
  ∧ resolutions p2 l2 = (if decide (1000 ≤ elapsed ds2)%Z then 1 else 0).
Proof.
  intros Hwf p1 l1 p2 l2.
  pose proof (elapsed_nonneg ds1) as N1. pose proof (elapsed_nonneg ds2) as N2.
  assert (timers_wf l1) as Hwf1 by apply timers_wf_elapse_all, timers_wf_delayed, Hwf.
  pose proof (delayed_then_elapse v1 l ds1 Hwf) as H1.
  pose proof (delayed_then_elapse v2 l1 ds2 Hwf1) as H2.
  cbv zeta in H1, H2. fold p1 l1 in H1. fold p2 l2 in H2.
  assert (p1 < p2) as Hlt.
  { unfold p2, delayed, new_promise. simpl.
    destruct (decide (1000 ≤ elapsed ds1)%Z);
      destruct H1 as [P _]; by apply lookup_lt_Some in P. }
  split; [lia|].
  assert (if decide (1000 ≤ elapsed ds1 + elapsed ds2)%Z
          then settled p1 v1 l2
          else awaiting p1 (MkTimer (now l + 1000) p1 v1) l2) as H1'.
  { destruct (decide (1000 ≤ elapsed ds1)%Z) as [Hd|Hd].
    - rewrite decide_True by lia.
      by apply elapse_all_settled, delayed_keeps_settled.
    - apply (delayed_keeps_awaiting v2) in H1.
      apply (elapse_all_awaiting _ _ _ ds2) in H1. cbn [tm_due tm_arg] in H1.
      change (now (delayed v2 l1).2) with (now l1) in H1.
      assert (now l1 = now l + elapsed ds1)%Z as Hnow.
      { unfold l1. by rewrite elapse_all_now. }
      rewrite Hnow in H1.
      destruct (decide (now l + 1000 ≤ now l + elapsed ds1 + elapsed ds2)%Z);
        [by rewrite decide_True by lia|by rewrite decide_False by lia]. }
  destruct (decide (1000 ≤ elapsed ds1 + elapsed ds2)%Z);
    destruct (decide (1000 ≤ elapsed ds2)%Z);
    repeat match goal with
           | H : settled _ _ _ |- _ => destruct H as (-> & _ & ->)
           | H : awaiting _ _ _ |- _ => destruct H as (-> & _ & -> & _)
           end; done.
Qed.

End MoreTimerFacts.

(** * The further facts at concrete inputs *)

Lemma set_frame_witness :
  atom_set prog_obs 1 a1 7 (atom_subscribe a0 (CbUser 0) w_shared).2
  = Some w_shared_set
  ∧ atom_get a0 w_shared_set = Some 5
  ∧ (0, CbUser 0) ∈ listeners_of 0 w_shared_set.
Proof.
  assert (atom_set prog_obs 1 a1 7 (atom_subscribe a0 (CbUser 0) w_shared).2
          = Some w_shared_set) as Hrun by by_computation.
  split; [exact Hrun|].
  destruct (set_frame prog_obs 1 a1 7 _ w_shared_set Hrun) as (Val & _ & Keep).
  split.
  - rewrite (Val a0); [by_computation|discriminate|reflexivity].
  - apply Keep; [elem_by_computation|reflexivity].
Defined.

Lemma shared_events_notify_witness :
  wf w_shared ∧ atom_events a0 = atom_events a1
  ∧ is_Some (targets w_shared !! atom_events a0)
  ∧ unsubscribes prog_obs (atom_events a0) 0 = false
  ∧ ∃ seg, trace w_shared_set = trace w_shared ++ Stored (atom_cell a1) 7 :: seg
      ∧ deliveries (atom_events a0) (next_event w_shared) (CbUser 0) seg = 1
      ∧ atom_get a0 w_shared_set = atom_get a0 w_shared.
Proof.
  assert (wf w_shared) as Hwf.
  { apply (reachable_wf prog_obs).
    exists 1, [OCreate 5 None; OCreate 6 (Some 0)]. by_computation. }
  assert (is_Some (targets w_shared !! atom_events a0)) as Hs.
  { exists []. by_computation. }
  assert (atom_set prog_obs 1 a1 7 (atom_subscribe a0 (CbUser 0) w_shared).2
          = Some w_shared_set) as Hrun by by_computation.
  split; [exact Hwf|]. split; [reflexivity|]. split; [exact Hs|].
  split; [reflexivity|].
  destruct (shared_events_notify prog_obs 1 a0 a1 0 7 w_shared w_shared_set
              Hwf eq_refl Hs eq_refl Hrun) as (seg & E & D & V).
  exists seg. split; [exact E|]. split; [exact D|].
  apply V; [discriminate|reflexivity].
Defined.

Lemma resubscribe_witness :
  is_Some (targets w_obs !! atom_events a0)
  ∧ let u1 := (atom_subscribe a0 (CbUser 0) w_obs).1 in
    let w2 := call_unsubscribe u1 (atom_subscribe a0 (CbUser 0) w_obs).2 in
    let w3 := (atom_subscribe a0 (CbUser 0) w2).2 in
    listeners_of (atom_events a0) w3
    = filter (λ x : listener, x.2 ≠ CbUser 0) (listeners_of (atom_events a0) w_obs)
      ++ [(next_listener w2, CbUser 0)]
    ∧ CbUser 0 ∉ (listeners_of (atom_events a0) (call_unsubscribe u1 w3)).*2.
Proof.
  assert (is_Some (targets w_obs !! atom_events a0)) as Hs.
  { eexists. by_computation. }
  split; [exact Hs|].
  destruct (resubscribe prog_obs a0 (CbUser 0) w_obs Hs) as (L & _ & Gone).
  split; [exact L|exact Gone].
Defined.


Lemma mount_subscribes_witness :
  wf w_atom ∧ the_fiber w_atom = None ∧ atom_get a0 w_atom = Some 5
  ∧ is_Some (targets w_atom !! atom_events a0)
  ∧ ∃ w1, useSyncExternalStoreShim a0 a0 w_atom = Some (5, w1)
      ∧ subscribed a0 (commit_effect w1)
      ∧ listeners_of (atom_events a0) (commit_effect w1)
        = listeners_of (atom_events a0) w_atom
          ++ [(next_listener w_atom, CbShim (next_closure w_atom) a0)].
Proof.
  assert (wf w_atom) as Hwf.
  { apply (reachable_wf prog_obs). exists 1, [OCreate 5 None]. by_computation. }
  assert (the_fiber w_atom = None) as Hf by by_computation.
  assert (atom_get a0 w_atom = Some 5) as Hv by by_computation.
  assert (is_Some (targets w_atom !! atom_events a0)) as Hs.
  { exists []. by_computation. }
  split; [exact Hwf|]. split; [exact Hf|]. split; [exact Hv|].
  split; [exact Hs|].
  destruct (mount_subscribes prog_obs a0 5 w_atom Hwf Hf Hv Hs)
    as (w1 & Hr & Hsub & _ & L & _).
  exists w1. split; [exact Hr|]. split; [exact Hsub|exact L].
Defined.

Lemma set_before_commit_is_missed_witness :
  wf w_atom ∧ the_fiber w_atom = None
  ∧ sets_cell prog_obs (atom_cell a0) = false
  ∧ useSyncExternalStoreShim a0 a0 w_atom = Some (5, w_rendered)
  ∧ atom_set prog_obs 1 a0 6 w_rendered = Some w_rendered_set
  ∧ fst <$> useSyncExternalStoreShim a0 a0 (commit_effect w_rendered_set) = Some 5
  ∧ native_snapshot_spec a0 (commit_effect w_rendered_set) = Some 6
  ∧ render_scheduled (commit_effect w_rendered_set) = false.
Proof.
  assert (wf w_atom) as Hwf.
  { apply (reachable_wf prog_obs). exists 1, [OCreate 5 None]. by_computation. }
  assert (the_fiber w_atom = None) as Hf by by_computation.
  assert (useSyncExternalStoreShim a0 a0 w_atom = Some (5, w_rendered)) as Hr
    by by_computation.
  assert (atom_set prog_obs 1 a0 6 w_rendered = Some w_rendered_set) as Hrun
    by by_computation.
  split; [exact Hwf|]. split; [exact Hf|]. split; [reflexivity|].
  split; [exact Hr|]. split; [exact Hrun|].
  exact (set_before_commit_is_missed prog_obs 1 a0 5 6 w_atom w_rendered
           w_rendered_set Hwf Hf eq_refl Hr Hrun).
Defined.

Lemma subscribed_w_two : subscribed a0 w_two.
Proof.
  split.
  - exists 5. by_computation.
  - exists f_shim, 0, 0. split; [by_computation|].
    split; [reflexivity|]. split; [reflexivity|]. split; [reflexivity|].
    elem_by_computation.
Defined.

Lemma change_of_atom_witness :
  wf w_two ∧ subscribed a0 w_two ∧ a0 ≠ b1
  ∧ is_Some (atom_get b1 w_two) ∧ is_Some (targets w_two !! atom_events b1)
  ∧ ∃ x w1, useSyncExternalStoreShim b1 b1 w_two = Some (x, w1)
      ∧ fst <$> useSyncExternalStoreShim a0 a0 w_two = Some x
      ∧ subscribed b1 (commit_effect w1)
      ∧ (∀ t l k, (l, CbShim k a0) ∉ listeners_of t (commit_effect w1)).
Proof.
  assert (wf w_two) as Hwf.
  { apply (reachable_wf prog_obs). exists 1, ops_two. by_computation. }
  assert (a0 ≠ b1) as Hne by discriminate.
  assert (is_Some (atom_get b1 w_two)) as Hv.
  { exists 6. by_computation. }
  assert (is_Some (targets w_two !! atom_events b1)) as Hs.
  { exists []. by_computation. }
  split; [exact Hwf|]. split; [exact subscribed_w_two|]. split; [exact Hne|].
  split; [exact Hv|]. split; [exact Hs|].
  destruct (change_of_atom prog_obs a0 b1 w_two Hwf subscribed_w_two Hne Hv Hs)
    as (x & w1 & Hr & Ha & Hsub & _ & Gone & _).
  exists x, w1. split; [exact Hr|]. split; [exact Ha|].
  split; [exact Hsub|exact Gone].
Defined.

Lemma delayed_twice_witness :
  timers_wf (empty_loop : loop nat)
  ∧ let l1 := elapse_all (delayed 7 empty_loop).2 [400]%Z in
    let l2 := elapse_all (delayed 8 l1).2 [700]%Z in
    promise_of (delayed 7 empty_loop).1 l2 = Some (Fulfilled 7)
    ∧ promise_of (delayed 8 l1).1 l2 = Some Pending.
Proof.
  assert (timers_wf (empty_loop : loop nat)) as Hwf.
  { split; apply Forall_nil_2. }
  split; [exact Hwf|].
  destruct (delayed_twice 7 8 empty_loop [400]%Z [700]%Z Hwf)
    as (_ & P1 & P2 & _).
  split; [exact P1|exact P2].
Defined.

Lemma set_after_unmount_witness :
  wf w_shim
  ∧ atom_set prog_obs 1 a0 6 (unmount w_shim) = Some w_unmounted_set
  ∧ the_fiber w_unmounted_set = None
  ∧ ∃ seg, trace w_unmounted_set = trace w_shim ++ Stored (atom_cell a0) 6 :: seg
      ∧ ∀ t l k g, Invoked t l (CbShim k g) [next_event w_shim] ∉ seg.
Proof.
  assert (wf w_shim) as Hwf.
  { apply (reachable_wf prog_obs). exists 1, ops_shim. by_computation. }
  assert (atom_set prog_obs 1 a0 6 (unmount w_shim) = Some w_unmounted_set)
    as Hrun by by_computation.
  split; [exact Hwf|]. split; [exact Hrun|].
  exact (set_after_unmount prog_obs 1 a0 6 w_shim w_unmounted_set Hwf Hrun).
Defined.
